(** * Schedule-Assistant: the scheduling core, embedded and verified

    A shallow embedding of the three algorithmic pieces of the repository
    and of the in-memory store that feeds them:

    - [scheduler_agency.py]: the [Task] record and the [SchedulerAgent]
      store ([add_task], [assign_task], [update_task_status],
      [optimize_schedule], [get_agent_schedule]);
    - [task_optimizer_agent.py]: [_build_dependency_graph],
      [_topological_sort], [optimize_task_sequence] and
      [suggest_task_redistribution];
    - [calendar_checking_agent.py]: the sweep of [get_availability] and the
      first-fit search of [find_next_available_slot].

    Conventions.  A [datetime] is an absolute instant, a [Z] counting
    microseconds since the epoch (every timestamp that reaches the core has
    been made timezone-aware: [create_task] and [get_availability] replace
    a missing [tzinfo] by UTC); a [timedelta] is a [Z] number of
    microseconds.  A Python [dict] keyed by strings is an association list
    in insertion order with pairwise distinct keys, because iteration order
    matters for every loop below.  A Python [set] of strings is a
    [gset string].  The interpreter bounds how deep calls may nest; the
    one recursive function, [visit], takes the number of nested calls still
    allowed as a parameter and raises [RecursionError] past it.  [Task] objects are mutable and shared between the task
    table and the per-agent lists, so the store holds references into an
    object heap. *)

From Stdlib Require Import ZArith Sorted Permutation.
From stdpp Require Import base tactics option list sorting sets gmap strings pretty.

Local Open Scope Z_scope.
Set Warnings "-clear-no-such-hyp".

(** ** Python runtime pieces used by the sources *)

Module Py.

(** Exceptions the modelled code can raise: the [ValueError] of the
    cycle check and of [min] on an empty sequence, and the
    [RecursionError] of the interpreter when calls nest deeper than it
    allows.  The payload is the message. *)
Inductive exception : Type :=
| ValueError (msg : string)
| RecursionError (msg : string).

Definition message (e : exception) : string :=
  match e with ValueError msg | RecursionError msg => msg end.

(** The message of the interpreter's [RecursionError] (its wording is not
    relied upon). *)
Definition recursion_message : string := "maximum recursion depth exceeded".

(** Result of running a function: a value or a raised exception. *)
Inductive outcome (A : Type) : Type :=
| Done (a : A)
| Raise (e : exception).
Arguments Done {A} a.
Arguments Raise {A} e.

Definition bind {A B : Type} (m : outcome A) (k : A → outcome B) : outcome B :=
  match m with
  | Done a => k a
  | Raise e => Raise e
  end.

(** [for x in l: body(x)] over a threaded state; an exception leaves the
    loop. *)
Fixpoint for_each {A S : Type} (body : A → S → outcome S) (l : list A) (s : S)
  : outcome S :=
  match l with
  | [] => Done s
  | x :: l' => bind (body x s) (for_each body l')
  end.

(** *** [dict] with string keys, in insertion order *)

Definition dict (V : Type) : Type := list (string * V).

Definition keys {V : Type} (d : dict V) : list string := d.*1.
Definition values {V : Type} (d : dict V) : list V := d.*2.
Definition items {V : Type} (d : dict V) : list (string * V) := d.

(** [d.get(k)]: [None] when the key is absent. *)
Fixpoint get {V : Type} (d : dict V) (k : string) : option V :=
  match d with
  | [] => None
  | (k', v) :: d' => if decide (k' = k) then Some v else get d' k
  end.

(** [d.get(k, dflt)] *)
Definition get_default {V : Type} (d : dict V) (k : string) (dflt : V) : V :=
  default dflt (get d k).

(** [k in d] *)
Definition contains {V : Type} (d : dict V) (k : string) : bool :=
  bool_decide (is_Some (get d k)).

(** [d[k] = v]: an existing key keeps its position, a new key goes last. *)
Fixpoint set {V : Type} (d : dict V) (k : string) (v : V) : dict V :=
  match d with
  | [] => [(k, v)]
  | (k', v') :: d' =>
      if decide (k' = k) then (k', v) :: d' else (k', v') :: set d' k v
  end.

(** A dictionary filled by [for k in l: d[k] = f(k)], as the dict
    comprehension and the loop of [optimize_schedule] do. *)
Definition fill {V : Type} (f : string → V) (d : dict V) (l : list string) : dict V :=
  foldl (λ d k, set d k (f k)) d l.

(** *** [list.sort(key=...)] and [sorted(..., key=...)]

    Python's sort is stable and compares keys with [<] only.  The result
    of a stable sort is determined by its input, so insertion from the
    right (each element goes before the first element that is not
    smaller) computes the same list as the interpreter's merge sort. *)
Section sort.
Context {A K : Type} (lt : K → K → bool) (key : A → K).

Fixpoint insert_sorted (x : A) (l : list A) : list A :=
  match l with
  | [] => [x]
  | y :: l' =>
      if lt (key y) (key x) then y :: insert_sorted x l' else x :: y :: l'
  end.

Definition sort_by (l : list A) : list A := foldr insert_sorted [] l.

(** [reverse=True] keeps stability: the interpreter reverses the
    list, sorts it and reverses the result. *)
Definition sort_by_reverse (l : list A) : list A := reverse (sort_by (reverse l)).
End sort.

(** [min(iterable, key=...)]: the first element whose key is minimal;
    [ValueError] on an empty iterable (the wording of that message
    depends on the interpreter version and is not relied upon). *)
Definition min_empty_message : string := "min() arg is an empty sequence".

Fixpoint min_from {A : Type} (key : A → Z) (best : A) (l : list A) : A :=
  match l with
  | [] => best
  | x :: l' => min_from key (if key x <? key best then x else best) l'
  end.

Definition min_by {A : Type} (key : A → Z) (l : list A) : outcome A :=
  match l with
  | [] => Raise (ValueError min_empty_message)
  | x :: l' => Done (min_from key x l')
  end.

(** [sum(...)] of integers. *)
Definition sum (l : list Z) : Z := foldr Z.add 0 l.

(** [needle in haystack] for strings. *)
Fixpoint is_prefix (p s : string) : bool :=
  match p, s with
  | EmptyString, _ => true
  | String a p', String b s' => bool_decide (a = b) && is_prefix p' s'
  | String _ _, EmptyString => false
  end.

Fixpoint str_contains (haystack needle : string) : bool :=
  is_prefix needle haystack
  || match haystack with
     | EmptyString => false
     | String _ h' => str_contains h' needle
     end.

End Py.

Export Py.

(** ** [scheduler_agency.py] *)

Module scheduler_agency.

Record Task : Type := {
  id : string;
  title : string;
  description : string;
  priority : Z;
  due_date : Z;
  status : string;
  assigned_to : string;
  dependencies : list string;
  scheduled_start : option Z;
  scheduled_end : option Z;
  calendar_event_id : option string
}.

(** [task.assigned_to = agent_id] and [task.status = status] on a
    mutable object: every other attribute keeps its value. *)
Definition with_assigned_to (t : Task) (agent_id : string) : Task :=
  {| id := id t; title := title t; description := description t;
     priority := priority t; due_date := due_date t; status := status t;
     assigned_to := agent_id; dependencies := dependencies t;
     scheduled_start := scheduled_start t; scheduled_end := scheduled_end t;
     calendar_event_id := calendar_event_id t |}.

Definition with_status (t : Task) (new_status : string) : Task :=
  {| id := id t; title := title t; description := description t;
     priority := priority t; due_date := due_date t; status := new_status;
     assigned_to := assigned_to t; dependencies := dependencies t;
     scheduled_start := scheduled_start t; scheduled_end := scheduled_end t;
     calendar_event_id := calendar_event_id t |}.

(** The object heap: [Task] instances live at references, and the
    store's table and per-agent lists hold references, so a write
    through one alias is seen through all of them. *)
Definition ref : Type := nat.
Definition heap : Type := ref → Task.

Definition write (h : heap) (r : ref) (t : Task) : heap :=
  λ r', if decide (r' = r) then t else h r'.

Record SchedulerAgent : Type := {
  tasks : dict ref;
  agents : list string;
  current_schedule : dict (list ref)
}.

(** [SchedulerAgent.__init__] *)
Definition new_SchedulerAgent : SchedulerAgent :=
  {| tasks := []; agents := []; current_schedule := [] |}.

(** The interpreter state the methods run in: the heap and [self]. *)
Record state : Type := {
  objects : heap;
  self : SchedulerAgent
}.

Definition add_task (task : ref) (σ : state) : bool * state :=
  let task_id := id (objects σ task) in
  if contains (tasks (self σ)) task_id then (false, σ)
  else
    (true,
     {| objects := objects σ;
        self := {| tasks := Py.set (tasks (self σ)) task_id task;
                   agents := agents (self σ);
                   current_schedule := current_schedule (self σ) |} |}).

(** [task_id not in self.tasks] is the [None] branch of the lookup;
    in the other branch [self.tasks[task_id]] is the reference found. *)
Definition assign_task (task_id agent_id : string) (σ : state) : bool * state :=
  match get (tasks (self σ)) task_id with
  | None => (false, σ)
  | Some r =>
      if bool_decide (agent_id ∈ agents (self σ)) then
        (true,
         {| objects := write (objects σ) r (with_assigned_to (objects σ r) agent_id);
            self := self σ |})
      else (false, σ)
  end.

Definition update_task_status (task_id new_status : string) (σ : state)
  : bool * state :=
  match get (tasks (self σ)) task_id with
  | None => (false, σ)
  | Some r =>
      (true,
       {| objects := write (objects σ) r (with_status (objects σ r) new_status);
          self := self σ |})
  end.

(** The sort key [(x.priority, x.due_date)] and the order of tuples:
    lexicographic. *)
Definition schedule_key (h : heap) (r : ref) : Z * Z :=
  (priority (h r), due_date (h r)).

Definition tuple_lt (a b : Z * Z) : bool :=
  (a.1 <? b.1) || ((a.1 =? b.1) && (a.2 <? b.2)).

Definition agent_tasks (h : heap) (table : dict ref) (agent : string) : list ref :=
  sort_by tuple_lt (schedule_key h)
    (filter (λ r, assigned_to (h r) = agent) (values table)).

Definition optimize_schedule (σ : state) : dict (list ref) * state :=
  let schedule :=
    foldl (λ schedule agent,
             Py.set schedule agent (agent_tasks (objects σ) (tasks (self σ)) agent))
          [] (agents (self σ)) in
  (schedule,
   {| objects := objects σ;
      self := {| tasks := tasks (self σ);
                 agents := agents (self σ);
                 current_schedule := schedule |} |}).

Definition get_agent_schedule (agent_id : string) (σ : state) : list ref :=
  get_default (current_schedule (self σ)) agent_id [].

(** A call of one of the mutating methods, and a run of such calls. *)
Inductive call : Type :=
| AddTask (task : ref)
| AssignTask (task_id agent_id : string)
| UpdateTaskStatus (task_id new_status : string)
| OptimizeSchedule.

Definition run_call (σ : state) (c : call) : state :=
  match c with
  | AddTask task => (add_task task σ).2
  | AssignTask task_id agent_id => (assign_task task_id agent_id σ).2
  | UpdateTaskStatus task_id new_status => (update_task_status task_id new_status σ).2
  | OptimizeSchedule => (optimize_schedule σ).2
  end.

Definition run_calls (σ : state) (cs : list call) : state := foldl run_call σ cs.

End scheduler_agency.

Export scheduler_agency.

(** ** [task_optimizer_agent.py] *)

Module task_optimizer_agent.

(** [_build_dependency_graph]: a later task with an id already seen
    overwrites the dependency list, the key keeps its first position. *)
Definition _build_dependency_graph (tasks : list Task) : dict (list string) :=
  foldl (λ graph task, Py.set graph (id task) (dependencies task)) [] tasks.

(** The three mutable locals of [_topological_sort] that the nested
    [visit] closes over. *)
Record dfs_state : Type := {
  visited : gset string;
  temp : gset string;
  order : list string
}.

Definition circular_message : string := "Circular dependency detected".

(** [visit].  The function calls itself once per edge followed, and the
    interpreter bounds how deep calls may nest: [depth] is the number of
    nested calls it still allows (the recursion limit less the frames in
    use).  A call made when none is left raises [RecursionError]; the
    calls inside it have one less. *)
Fixpoint visit (depth : nat) (graph : dict (list string)) (task_id : string)
    (st : dfs_state) : outcome dfs_state :=
  match depth with
  | O => Raise (RecursionError recursion_message)
  | S depth' =>
      if decide (task_id ∈ temp st) then Raise (ValueError circular_message)
      else if decide (task_id ∈ visited st) then Done st
      else
        bind
          (for_each (visit depth' graph) (get_default graph task_id [])
             {| visited := visited st;
                temp := temp st ∪ {[task_id]};
                order := order st |})
          (λ st',
             Done {| visited := visited st' ∪ {[task_id]};
                     temp := temp st' ∖ {[task_id]};
                     order := order st' ++ [task_id] |})
  end.

(** Every id that occurs in the graph, as a key or as a dependency. *)
Definition nodes (graph : dict (list string)) : list string :=
  keys graph ++ concat (values graph).

(** [_topological_sort]; [depth] is the number of nested calls the
    interpreter still allows when the loop over the keys runs. *)
Definition _topological_sort (depth : nat) (graph : dict (list string))
  : outcome (list string) :=
  bind
    (for_each
       (λ task_id st,
          if decide (task_id ∈ visited st) then Done st
          else visit depth graph task_id st)
       (keys graph)
       {| visited := ∅; temp := ∅; order := [] |})
    (λ st, Done (reverse (order st))).

Definition optimize_task_sequence (depth : nat) (tasks : list Task)
  : outcome (list string) :=
  _topological_sort depth (_build_dependency_graph tasks).

(** [sum(t.priority for t in x[1])] *)
Definition load (ts : list Task) : Z := Py.sum (priority <$> ts).

(** One pass of the loop body of [suggest_task_redistribution]. *)
Definition place (task : Task) (workload : dict (list Task))
  : outcome (dict (list Task)) :=
  bind (min_by (λ x, load x.2) (items workload))
    (λ m, let min_agent := m.1 in
          Done (Py.set workload min_agent
                  (get_default workload min_agent [] ++ [task]))).

Definition empty_workload (agents : list string) : dict (list Task) :=
  foldl (λ workload agent, Py.set workload agent []) [] agents.

Definition sorted_tasks (tasks : list Task) : list Task :=
  sort_by_reverse Z.ltb priority tasks.

Definition suggest_task_redistribution (tasks : list Task) (agents : list string)
  : outcome (dict (list Task)) :=
  for_each place (sorted_tasks tasks) (empty_workload agents).

End task_optimizer_agent.

Export task_optimizer_agent.

(** ** [calendar_checking_agent.py] *)

Module calendar_checking_agent.

Record TimeSlot : Type := {
  start_time : Z;
  end_time : Z;
  is_available : bool
}.

Definition microseconds_per_minute : Z := 60 * 1000000.
Definition minutes (n : Z) : Z := n * microseconds_per_minute.
Definition hours (n : Z) : Z := minutes (60 * n).
Definition days (n : Z) : Z := hours (24 * n).

(** The body of the loop over [busy_slots]: the state is
    [(current_time, available_slots)]. *)
Definition sweep_step (st : Z * list TimeSlot) (busy_slot : TimeSlot)
  : Z * list TimeSlot :=
  let '(current_time, available_slots) := st in
  (end_time busy_slot,
   if current_time <? start_time busy_slot
   then available_slots ++
          [{| start_time := current_time;
              end_time := start_time busy_slot;
              is_available := true |}]
   else available_slots).

(** [get_availability] from the point where [busy_slots] has been built
    out of the provider's reply: the events come in the order the
    provider sent them (requested with [orderBy='startTime'] between
    [timeMin] and [timeMax]); the code does not sort or filter them. *)
Definition get_availability (busy_slots : list TimeSlot) (t_min t_max : Z)
  : list TimeSlot :=
  let '(current_time, available_slots) := foldl sweep_step (t_min, []) busy_slots in
  if current_time <? t_max
  then available_slots ++
         [{| start_time := current_time; end_time := t_max; is_available := true |}]
  else available_slots.

(** The loop of [find_next_available_slot] over the free slots. *)
Fixpoint first_fit (duration : Z) (available_slots : list TimeSlot)
  : option TimeSlot :=
  match available_slots with
  | [] => None
  | slot :: rest =>
      let slot_duration := end_time slot - start_time slot in
      if duration <=? slot_duration
      then Some {| start_time := start_time slot;
                   end_time := start_time slot + duration;
                   is_available := true |}
      else first_fit duration rest
  end.

(** [now] is the clock reading used when [start_from] is [None];
    [busy_slots] is what the provider returns for the seven days that
    follow. *)
Definition find_next_available_slot (now : Z) (busy_slots : list TimeSlot)
    (duration : Z) (start_from : option Z) : option TimeSlot :=
  let start_from := default now start_from in
  let end_time := start_from + days 7 in
  first_fit duration (get_availability busy_slots start_from end_time).

End calendar_checking_agent.

Export calendar_checking_agent.

(** * Vocabulary of the statements, and sample data *)

(** ** Dependency graphs *)

(** [d] is a declared dependency of [t] in the graph. *)
Definition depends_on (graph : dict (list string)) (t d : string) : Prop :=
  d ∈ get_default graph t [].

(** The dependency relation has a cycle: some id reaches itself along
    one or more dependency edges. *)
Definition has_cycle (graph : dict (list string)) : Prop :=
  ∃ t, tc (depends_on graph) t t.

(** Every id is listed after the ids it depends on. *)
Definition dependencies_first (graph : dict (list string)) (l : list string) : Prop :=
  ∀ l1 t l2 d, l = l1 ++ t :: l2 → depends_on graph t d → d ∈ l1.

(** Every id is listed before the ids it depends on. *)
Definition dependents_first (graph : dict (list string)) (l : list string) : Prop :=
  ∀ l1 t l2 d, l = l1 ++ t :: l2 → depends_on graph t d → d ∈ l2.

(** What the depth-first walk maintains between calls of [visit]. *)
Record dfs_inv (graph : dict (list string)) (st : dfs_state) : Prop := {
  inv_closed : ∀ t d, t ∈ visited st → depends_on graph t d → d ∈ visited st;
  inv_elems : ∀ t, t ∈ order st ↔ t ∈ visited st;
  inv_first : dependencies_first graph (order st);
  inv_nodup : NoDup (order st);
  inv_disjoint : visited st ## temp st
}.

(** A call that returns keeps the invariant and has marked its id. *)
Definition returns_marked (graph : dict (list string))
    (body : string → dfs_state → outcome dfs_state) : Prop :=
  ∀ t st st', body t st = Done st' → dfs_inv graph st →
    dfs_inv graph st' ∧ t ∈ visited st' ∧ visited st ⊆ visited st'.

(** The ids in [temp] are the ones on the current recursion path: each
    of them reaches the id about to be visited. *)
Definition on_path (graph : dict (list string)) (st : dfs_state) (t : string) : Prop :=
  ∀ y, y ∈ temp st → tc (depends_on graph) y t.

(** A call that raises [ValueError] was made on a graph with a cycle,
    and raises the circular-dependency error. *)
Definition raises_on_cycle (graph : dict (list string))
    (body : string → dfs_state → outcome dfs_state) : Prop :=
  ∀ t st msg, body t st = Raise (ValueError msg) → on_path graph st t →
    has_cycle graph ∧ msg = circular_message.

(** The ids of the graph as a set. *)
Definition universe (graph : dict (list string)) : gset string :=
  list_to_set (nodes graph).

(** The interpreter allows more nested calls than the graph has distinct
    ids: no walk over the graph nests that deep. *)
Definition deep_enough (depth : nat) (graph : dict (list string)) : Prop :=
  (size (universe graph) < depth)%nat.

(** With [depth] above the number of ids not on the recursion path, a
    call does not raise [RecursionError]. *)
Definition never_exhausted (graph : dict (list string)) (depth : nat)
    (body : string → dfs_state → outcome dfs_state) : Prop :=
  ∀ t st msg, t ∈ universe graph → (size (universe graph ∖ temp st) < depth)%nat →
    body t st ≠ Raise (RecursionError msg).

(** The body of the loop over the keys, and the state it starts from. *)
Definition visit_root (depth : nat) (graph : dict (list string)) (task_id : string)
    (st : dfs_state) : outcome dfs_state :=
  if decide (task_id ∈ visited st) then Done st
  else visit depth graph task_id st.

Definition initial : dfs_state := {| visited := ∅; temp := ∅; order := [] |}.

(** ** The store *)

(** The order of the sort keys [(priority, due_date)]. *)
Definition key_le (a b : Z * Z) : Prop := a.1 < b.1 ∨ (a.1 = b.1 ∧ a.2 ≤ b.2).

(** [r1] may come before [r2] in an agent's list: lower priority value
    first, earlier due date first among equal priorities. *)
Definition by_priority_then_due (h : heap) : relation ref :=
  λ r1 r2, key_le (schedule_key h r1) (schedule_key h r2).

(** A task with the given id, priority, due date, assigned agent and
    dependencies. *)
Definition sample_task (i : string) (p due : Z) (agent : string)
    (deps : list string) : Task :=
  {| id := i; title := "title"; description := "text"; priority := p;
     due_date := due; status := "pending"; assigned_to := agent;
     dependencies := deps; scheduled_start := None; scheduled_end := None;
     calendar_event_id := None |}.

(** Four objects: two distinct tasks, a third one that reuses the id of
    the first, and an unassigned one. *)
Definition sample_heap : heap :=
  λ r, match r with
       | 0%nat => sample_task "task_1" 2 100 "agent_1" []
       | 1%nat => sample_task "task_2" 1 50 "agent_1" ["task_1"]
       | 2%nat => sample_task "task_1" 7 10 "agent_2" []
       | _ => sample_task "task_4" 1 10 "" []
       end.

Definition sample_state (roster : list string) : state :=
  {| objects := sample_heap;
     self := {| tasks := []; agents := roster; current_schedule := [] |} |}.

(** ** Calendar intervals *)

Definition slot (a b : Z) (free : bool) : TimeSlot :=
  {| start_time := a; end_time := b; is_available := free |}.

(** The half-open intervals [[start, end)] of two slots share an instant. *)
Definition intersects (a b : TimeSlot) : Prop :=
  Z.max (start_time a) (start_time b) < Z.min (end_time a) (end_time b).

(** The instant [p] lies in [[start, end)]. *)
Definition covers (s : TimeSlot) (p : Z) : Prop := start_time s ≤ p < end_time s.

Definition within (t_min t_max : Z) (s : TimeSlot) : Prop :=
  t_min ≤ start_time s ∧ end_time s ≤ t_max.

Definition duration_of (s : TimeSlot) : Z := end_time s - start_time s.

(** The order the sweep relies on: start times and end times both
    non-decreasing along the list, so that no event is nested inside an
    earlier one. *)
Definition follows (a b : TimeSlot) : Prop :=
  start_time a ≤ start_time b ∧ end_time a ≤ end_time b.

(** An event the provider may return for the window: it does not end
    before the window starts nor start after it ends. *)
Definition meets_window (t_min t_max : Z) (b : TimeSlot) : Prop :=
  t_min ≤ end_time b ∧ start_time b ≤ t_max.


(** The sweep as a recursion on the busy list. *)
Fixpoint free_from (current_time : Z) (busy_slots : list TimeSlot) (t_max : Z)
  : list TimeSlot :=
  match busy_slots with
  | [] => if current_time <? t_max then [slot current_time t_max true] else []
  | b :: rest =>
      (if current_time <? start_time b
       then [slot current_time (start_time b) true] else [])
      ++ free_from (end_time b) rest t_max
  end.


(** The busy slots of the worked example of the specification:
    02:00-03:00 and 05:00-06:00. *)
Definition example_busy : list TimeSlot :=
  [slot (hours 2) (hours 3) false; slot (hours 5) (hours 6) false].

(** Two events as the provider can send them, in the order of their
    start times: 01:00-08:00 and, inside it, 02:00-03:00. *)
Definition nested_busy : list TimeSlot :=
  [slot (hours 1) (hours 8) false; slot (hours 2) (hours 3) false].


(** ** Workloads *)

(** The roster with repeated ids dropped, each id at its first place:
    the order in which a dictionary built from the roster lists its keys. *)
Fixpoint first_occurrences (l : list string) : list string :=
  match l with
  | [] => []
  | x :: l' => x :: filter (λ y, y ≠ x) (first_occurrences l')
  end.

(** The cumulative weight of an agent in a workload. *)
Definition total (workload : dict (list Task)) (agent : string) : Z :=
  load (get_default workload agent []).

(** [m] is at index [j] of [l], its key is minimal in [l], and strictly
    smaller than the key of every earlier element. *)
Definition first_min {A : Type} (key : A → Z) (l : list A) (j : nat) (m : A) : Prop :=
  l !! j = Some m
  ∧ (∀ y, y ∈ l → key m ≤ key y)
  ∧ (∀ j' y, (j' < j)%nat → l !! j' = Some y → key m < key y).

(** One greedy step: [task] goes to the end of the list of the first
    agent of the roster whose cumulative weight is minimal; that agent's
    weight grows by the task's weight, and no other list changes. *)
Definition greedy_placement (roster : list string)
    (w : dict (list Task)) (task : Task) (w' : dict (list Task)) : Prop :=
  ∃ j agent,
    first_min (total w) roster j agent
    ∧ get w' agent = Some (get_default w agent [] ++ [task])
    ∧ total w' agent = total w agent + priority task
    ∧ (∀ other, other ≠ agent → get w' other = get w other)
    ∧ keys w' = roster.

(** The workload once the tasks of [placed] have gone through the loop. *)
Definition workload_after (agents : list string) (placed : list Task)
  : outcome (dict (list Task)) :=
  for_each place placed (empty_workload agents).

(** The whole run is greedy: the queue is the task list by descending
    weight (tasks of equal weight in their original order), the run
    returns a workload over the roster, and each task of
    the queue is placed by one greedy step on the workload its
    predecessors left; what has been placed stays where it is up to the
    result. *)
Definition greedy_run (tasks : list Task) (agents : list string) : Prop :=
  let roster := first_occurrences agents in
  let queue := sorted_tasks tasks in
  queue ≡ₚ tasks
  ∧ Sorted (λ a b, priority b ≤ priority a) queue
  ∧ (∀ p, filter (λ t, priority t = p) queue = filter (λ t, priority t = p) tasks)
  ∧ ∃ result,
      suggest_task_redistribution tasks agents = Done result
      ∧ keys result = roster
      ∧ ∀ pre task post, queue = pre ++ task :: post →
          ∃ w w',
            workload_after agents pre = Done w
            ∧ workload_after agents (pre ++ [task]) = Done w'
            ∧ greedy_placement roster w task w'
            ∧ ∀ agent, get_default w' agent [] `prefix_of` get_default result agent [].

(** Three tasks of weights 5, 3 and 3. *)
Definition weight_5 : Task := sample_task "task_1" 5 0 "" [].
Definition weight_3 : Task := sample_task "task_2" 3 0 "" [].
Definition weight_3' : Task := sample_task "task_3" 3 0 "" [].

(** ** Sample task sets *)

(** A depends on B, B on nothing. *)
Definition chain_pair : list Task :=
  [sample_task "A" 1 0 "" ["B"]; sample_task "B" 1 0 "" []].

(** A depends on B and B depends on A. *)
Definition cyclic_pair : list Task :=
  [sample_task "A" 1 0 "" ["B"]; sample_task "B" 1 0 "" ["A"]].

(** A depends on an id that names no task. *)
Definition dangling : list Task := [sample_task "A" 1 0 "" ["ghost"]].

(** A chain of [n + 1] tasks named by the numerals 0 to [n]: task [i]
    depends on task [i + 1], and the last task has the dependencies
    [tail]. *)
Definition link (i : nat) : Task := sample_task (pretty i) 1 0 "" [pretty (S i)].

Definition chain (n : nat) (tail : list string) : list Task :=
  (link <$> seq 0 n) ++ [sample_task (pretty n) 1 0 "" tail].

(** The error names the id [t]: the id occurs in its message. *)
Definition names (e : exception) (t : string) : Prop :=
  str_contains (message e) t = true.

(** ** Store states the methods can produce *)

(** The task table is consistent with the objects it holds: its keys are
    distinct and each key is the id of the object stored under it.  The
    empty table is, and the store's methods keep it so. *)
Definition consistent (σ : state) : Prop :=
  NoDup (keys (tasks (self σ)))
  ∧ ∀ k r, get (tasks (self σ)) k = Some r → id (objects σ r) = k.

(** ** Ids a dependency graph mentions *)

(** [x] occurs in the graph: as the id of a task or as a declared
    dependency of one. *)
Definition mentioned (graph : dict (list string)) (x : string) : Prop :=
  x ∈ keys graph ∨ ∃ t, depends_on graph t x.

(** A call on a mentioned id that returns has appended mentioned ids
    only. *)
Definition appends_mentioned (graph : dict (list string))
    (body : string → dfs_state → outcome dfs_state) : Prop :=
  ∀ t st st', body t st = Done st' → mentioned graph t →
    (∀ x, x ∈ order st → mentioned graph x) →
    ∀ x, x ∈ order st' → mentioned graph x.

(** ** [task_optimizer_agent.py]: [analyze_workload] *)

Module workload_analysis.

(** The dictionary [analyze_workload] returns has four fixed keys; it is a
    record here.  The two lists are created empty and never filled. *)
Record analysis : Type := {
  total_tasks : Z;
  priority_distribution : dict Z;
  overloaded_days : list string;
  recommendations : list string
}.

(** The body of the loop: the key is [str(task.priority)], the decimal
    numeral of the integer. *)
Definition count_priority (distribution : dict Z) (task : Task) : dict Z :=
  let key := pretty (priority task) in
  Py.set distribution key (get_default distribution key 0 + 1).

Definition analyze_workload (tasks : list Task) : analysis :=
  {| total_tasks := Z.of_nat (length tasks);
     priority_distribution := foldl count_priority [] tasks;
     overloaded_days := [];
     recommendations := [] |}.

End workload_analysis.

Export workload_analysis.

(** ** Balance of a workload *)

(** No agent of the roster carries more than [bound] above any other. *)
Definition balanced (bound : Z) (roster : list string) (w : dict (list Task)) : Prop :=
  ∀ a b, a ∈ roster → b ∈ roster → total w a ≤ total w b + bound.

(** The number of tasks of priority [p]. *)
Definition with_priority (p : Z) (tasks : list Task) : nat :=
  length (filter (λ task, priority task = p) tasks).

(** ** [notification_agent.py] *)

Module notification_agent.

(** A notification: the dictionary [create_notification] builds, whose
    eight keys are fixed.  The fields carry the prefix [n_] because
    [id], [priority] and [status] are attributes of [Task] already.
    [n_timestamp] is a reading of the local clock.  The dictionary is
    shared between the queue, the history and the callers; nothing below
    looks at a notification through two of them, so it is a value here. *)
Record Notification : Type := {
  n_id : string;
  n_type : string;
  n_message : string;
  n_recipient : string;
  n_priority : string;
  n_timestamp : Z;
  n_related_task : option string;
  n_status : string
}.

(** [notification_settings]: four switches, set to [True] at creation. *)
Record Settings : Type := {
  task_assignment : bool;
  status_update : bool;
  deadline_reminder : bool;
  priority_change : bool
}.

Record NotificationAgent : Type := {
  notification_queue : list Notification;
  notification_history : list Notification;
  notification_settings : Settings
}.

(** [NotificationAgent.__init__] *)
Definition new_NotificationAgent : NotificationAgent :=
  {| notification_queue := [];
     notification_history := [];
     notification_settings :=
       {| task_assignment := true; status_update := true;
          deadline_reminder := true; priority_change := true |} |}.

Definition newline : string := String (Ascii.ascii_of_nat 10) EmptyString.

(** [create_notification]; [now] is what [datetime.datetime.now()] reads. *)
Definition create_notification (now : Z)
    (notification_type message recipient priority : string)
    (related_task : option Task) (self : NotificationAgent)
  : Notification * NotificationAgent :=
  let notification :=
    {| n_id := "notif_" +:+ pretty (S (length (notification_history self)));
       n_type := notification_type;
       n_message := message;
       n_recipient := recipient;
       n_priority := priority;
       n_timestamp := now;
       n_related_task := id <$> related_task;
       n_status := "pending" |} in
  (notification,
   {| notification_queue := notification_queue self ++ [notification];
      notification_history := notification_history self;
      notification_settings := notification_settings self |}).

(** [send_task_assignment_notification].  The message prints
    [task.due_date] with [str] of a [datetime]; that rendering is the
    parameter [str_datetime]. *)
Definition send_task_assignment_notification (str_datetime : Z → string) (now : Z)
    (task : Task) (agent : string) (self : NotificationAgent) : NotificationAgent :=
  if negb (task_assignment (notification_settings self)) then self
  else
    let message :=
      "New task assigned: " +:+ title task +:+ newline
      +:+ "Priority: " +:+ pretty (priority task) +:+ newline
      +:+ "Due: " +:+ str_datetime (due_date task) in
    (create_notification now "task_assignment" message agent
       (if 2 <? priority task then "high" else "normal") (Some task) self).2.

(** [timedelta.days]: whole days, rounded down. *)
Definition timedelta_days (delta : Z) : Z := delta `div` days 1.

(** [send_deadline_reminder]; [current_time] is the UTC clock reading of
    the method, [now] the one of [create_notification]. *)
Definition send_deadline_reminder (current_time now : Z) (task : Task)
    (self : NotificationAgent) : NotificationAgent :=
  if negb (deadline_reminder (notification_settings self)) then self
  else
    let time_until_due := due_date task - current_time in
    if timedelta_days time_until_due <=? 2 then
      let message :=
        "Deadline approaching for task: " +:+ title task +:+ newline
        +:+ "Due in " +:+ pretty (timedelta_days time_until_due) +:+ " days" in
      (create_notification now "deadline_reminder" message (assigned_to task)
         "high" (Some task) self).2
    else self.

(** [notification["status"] = "sent"] *)
Definition sent (n : Notification) : Notification :=
  {| n_id := n_id n; n_type := n_type n; n_message := n_message n;
     n_recipient := n_recipient n; n_priority := n_priority n;
     n_timestamp := n_timestamp n; n_related_task := n_related_task n;
     n_status := "sent" |}.

(** The [while] loop of [process_notifications]: the queue loses its head
    at every turn. *)
Fixpoint process_loop (queue history processed : list Notification)
  : list Notification * list Notification * list Notification :=
  match queue with
  | [] => (queue, history, processed)
  | notification :: queue' =>
      process_loop queue' (history ++ [sent notification])
        (processed ++ [sent notification])
  end.

Definition process_notifications (self : NotificationAgent)
  : list Notification * NotificationAgent :=
  let '(queue, history, processed) :=
    process_loop (notification_queue self) (notification_history self) [] in
  (processed,
   {| notification_queue := queue;
      notification_history := history;
      notification_settings := notification_settings self |}).

(** [get_notification_history]: [None] and the empty string are both
    false in [if recipient:]. *)
Definition get_notification_history (recipient : option string)
    (self : NotificationAgent) : list Notification :=
  match recipient with
  | Some r =>
      if decide (r = "") then notification_history self
      else filter (λ n, n_recipient n = r) (notification_history self)
  | None => notification_history self
  end.

End notification_agent.

Export notification_agent.

(** ** [scheduler_orchestrator.py] *)

Module scheduler_orchestrator.

(** The two parts of the orchestrator that hold state here: the store
    (with the heap of task objects) and the notification agent.  The
    optimizer has no state; the calendar and mail agents are external. *)
Record SchedulerOrchestrator : Type := {
  scheduler_agent : state;
  notifier : NotificationAgent
}.

Definition with_store (o : SchedulerOrchestrator) (σ : state) : SchedulerOrchestrator :=
  {| scheduler_agent := σ; notifier := notifier o |}.

Definition initialize_system (agent_ids : list string) (o : SchedulerOrchestrator)
  : SchedulerOrchestrator :=
  with_store o
    {| objects := objects (scheduler_agent o);
       self := {| tasks := tasks (self (scheduler_agent o));
                  agents := agent_ids;
                  current_schedule := current_schedule (self (scheduler_agent o)) |} |}.

(** [create_task].  [fresh] is the reference of the [Task] object the
    constructor call creates; [due_date] is already an absolute
    instant. *)
Definition create_task (fresh : ref) (title description : string)
    (priority due_date : Z) (dependencies : option (list string))
    (o : SchedulerOrchestrator) : option ref * SchedulerOrchestrator :=
  let σ := scheduler_agent o in
  let task :=
    {| id := "task_" +:+ pretty (S (length (tasks (self σ))));
       scheduler_agency.title := title;
       scheduler_agency.description := description;
       scheduler_agency.priority := priority;
       scheduler_agency.due_date := due_date;
       status := "pending";
       assigned_to := "";
       scheduler_agency.dependencies := default [] dependencies;
       scheduled_start := None;
       scheduled_end := None;
       calendar_event_id := None |} in
  let '(added, σ') :=
    add_task fresh {| objects := write (objects σ) fresh task; self := self σ |} in
  if added then (Some fresh, with_store o σ') else (None, with_store o σ').

(** [task.scheduled_start = ...; task.scheduled_end = ...] *)
Definition with_scheduled (t : Task) (start_ end_ : Z) : Task :=
  {| id := id t; title := title t; description := description t;
     priority := priority t; due_date := due_date t; status := status t;
     assigned_to := assigned_to t; dependencies := dependencies t;
     scheduled_start := Some start_; scheduled_end := Some end_;
     calendar_event_id := calendar_event_id t |}.

(** [find_available_time_for_task].  [now] is the UTC clock reading and
    [busy_slots] the provider's events for the seven days after it.  The
    [event] dictionary the method builds is dropped: no calendar entry is
    made. *)
Definition find_available_time_for_task (now : Z) (busy_slots : list TimeSlot)
    (task : ref) (o : SchedulerOrchestrator)
  : option TimeSlot * SchedulerOrchestrator :=
  let σ := scheduler_agent o in
  let estimated_duration := hours (2 * priority (objects σ task)) in
  match find_next_available_slot now busy_slots estimated_duration (Some now) with
  | Some available_slot =>
      (Some available_slot,
       with_store o
         {| objects :=
              write (objects σ) task
                (with_scheduled (objects σ task)
                   (start_time available_slot) (end_time available_slot));
            self := self σ |})
  | None => (None, o)
  end.

(** One turn of the inner loop of [assign_and_optimize_tasks]: the
    second component counts the turns, and [clock k] is the local clock
    reading during turn [k]. *)
Definition assign_step (str_datetime : Z → string) (clock : nat → Z) (agent : string)
    (st : SchedulerOrchestrator * nat) (task : Task) : SchedulerOrchestrator * nat :=
  let '(o, turn) := st in
  ({| scheduler_agent := (assign_task (id task) agent (scheduler_agent o)).2;
      notifier :=
        send_task_assignment_notification str_datetime (clock turn) task agent
          (notifier o) |},
   S turn).

(** [assign_and_optimize_tasks].  The tasks handed to the optimizer are
    the objects of the table as they are when the method starts; the loop
    reads only attributes it does not write.  The analysis is printed and
    dropped.  An exception of the optimizer leaves the state untouched,
    since nothing has been written yet. *)
Definition assign_and_optimize_tasks (str_datetime : Z → string) (clock : nat → Z)
    (o : SchedulerOrchestrator) : outcome (dict (list ref) * SchedulerOrchestrator) :=
  let σ := scheduler_agent o in
  let all_tasks := objects σ <$> values (tasks (self σ)) in
  let workload_analysis := analyze_workload all_tasks in
  bind (suggest_task_redistribution all_tasks (agents (self σ)))
    (λ task_distribution,
       let '(o', _) :=
         foldl (λ st '(agent, tasks), foldl (assign_step str_datetime clock agent) st tasks)
           (o, 0%nat) (items task_distribution) in
       let '(schedule, σ') := optimize_schedule (scheduler_agent o') in
       Done (schedule, with_store o' σ')).

(** One turn of the loop of [check_deadlines]: the second component
    counts the turns; [utc_now k] is the UTC clock reading of
    [send_deadline_reminder] during turn [k] and [now k] the local one of
    [create_notification]. *)
Definition remind_step (utc_now now : nat → Z) (σ : state)
    (st : NotificationAgent * nat) (task : ref) : NotificationAgent * nat :=
  let '(agent, turn) := st in
  (send_deadline_reminder (utc_now turn) (now turn) (objects σ task) agent, S turn).

(** [check_deadlines] *)
Definition check_deadlines (utc_now now : nat → Z) (o : SchedulerOrchestrator)
  : SchedulerOrchestrator :=
  let σ := scheduler_agent o in
  {| scheduler_agent := σ;
     notifier :=
       (foldl (remind_step utc_now now σ) (notifier o, 0%nat) (values (tasks (self σ)))).1 |}.

(** [process_pending_notifications]: the list of processed notifications
    is dropped. *)
Definition process_pending_notifications (o : SchedulerOrchestrator)
  : SchedulerOrchestrator :=
  {| scheduler_agent := scheduler_agent o;
     notifier := (process_notifications (notifier o)).2 |}.

End scheduler_orchestrator.

Export scheduler_orchestrator.

(** The report of [SchedulerOrchestrator.get_agent_schedule], which shares
    its name with the method of the store it calls. *)
Module Orchestrator.

(** The dictionary the method returns: four fixed keys. *)
Record report : Type := {
  s_agent_id : string;
  s_task_count : nat;
  s_tasks : list ref;
  s_notifications : list Notification
}.

Definition get_agent_schedule (agent_id : string) (o : SchedulerOrchestrator) : report :=
  let tasks := scheduler_agency.get_agent_schedule agent_id (scheduler_agent o) in
  {| s_agent_id := agent_id;
     s_task_count := length tasks;
     s_tasks := tasks;
     s_notifications := get_notification_history (Some agent_id) (notifier o) |}.

End Orchestrator.

(** ** Vocabulary for the notifications and the orchestrator *)

(** A request to [create_notification]: the clock reading and the
    arguments. *)
Record request : Type := {
  r_now : Z;
  r_type : string;
  r_message : string;
  r_recipient : string;
  r_priority : string;
  r_related_task : option Task
}.

Definition create (self : NotificationAgent) (q : request) : NotificationAgent :=
  (create_notification (r_now q) (r_type q) (r_message q) (r_recipient q)
     (r_priority q) (r_related_task q) self).2.

(** The ids [create_task] gives out: [task_1], ..., [task_n]. *)
Definition numbered (n : nat) : list string :=
  (λ i, "task_" +:+ pretty (S i)) <$> seq 0 n.

(** The assignments the loop of [assign_and_optimize_tasks] makes, in
    order: task id and agent. *)
Definition assignments (task_distribution : dict (list Task)) : list (string * string) :=
  items task_distribution ≫= λ '(agent, tasks), (λ task, (id task, agent)) <$> tasks.

(** An orchestrator over the sample objects with an empty table. *)
Definition sample_orchestrator (roster : list string) : SchedulerOrchestrator :=
  {| scheduler_agent := sample_state roster; notifier := new_NotificationAgent |}.




(** One assignment of the loop, on the store. *)
Definition assign_pair (σ : state) (ka : string * string) : state :=
  (assign_task ka.1 ka.2 σ).2.

(** The id [create_task] forms for a table of [n] tasks. *)
Definition next_id (n : nat) : string := "task_" +:+ pretty (S n).





(** What a task-assignment notification says about its task and its
    recipient. *)
Definition about (n : Notification) : option string * string :=
  (n_related_task n, n_recipient n).



(** * Lemmas and theorems *)

(** ** The depth-first walk of [_topological_sort] *)

Section dfs.
Context (graph : dict (list string)).
Implicit Types (st : dfs_state) (t d : string) (l : list string).

Lemma bind_Done {A B} (m : outcome A) (k : A → outcome B) b :
  bind m k = Done b → ∃ a, m = Done a ∧ k a = Done b.
Proof. destruct m; simpl; [eauto | done]. Qed.

Lemma bind_Raise {A B} (m : outcome A) (k : A → outcome B) e :
  bind m k = Raise e → m = Raise e ∨ ∃ a, m = Done a ∧ k a = Raise e.
Proof. destruct m; simpl; [eauto|]. intros [= ->]. by left. Qed.

(** *** [temp] is restored by every call that returns *)

Lemma for_each_temp (body : string → dfs_state → outcome dfs_state) :
  (∀ t st st', body t st = Done st' → temp st' = temp st) →
  ∀ l st st', for_each body l st = Done st' → temp st' = temp st.
Proof.
  intros Hbody l. induction l as [|t l IH]; intros st st' Hrun; simpl in Hrun.
  - by injection Hrun as <-.
  - apply bind_Done in Hrun as (st1 & H1 & H2).
    rewrite (IH _ _ H2). eauto.
Qed.

Lemma visit_temp depth : ∀ t st st', visit depth graph t st = Done st' → temp st' = temp st.
Proof.
  induction depth as [|depth IH]; intros t st st' Hrun; simpl in Hrun; [done|].
  destruct (decide (t ∈ temp st)) as [|Hnt]; [done|].
  destruct (decide (t ∈ visited st)); [by injection Hrun as <-|].
  apply bind_Done in Hrun as (st1 & H1 & [= <-]).
  apply (for_each_temp _ IH) in H1. simpl in *. rewrite H1.
  apply set_eq. intros y. rewrite elem_of_difference, elem_of_union, elem_of_singleton.
  naive_solver.
Qed.

(** *** A call that returns keeps the invariant and marks its id *)

Lemma dependencies_first_snoc l t :
  dependencies_first graph l →
  (∀ d, depends_on graph t d → d ∈ l) →
  dependencies_first graph (l ++ [t]).
Proof.
  intros Hl Ht l1 y l2 d Heq Hd.
  destruct l2 as [|z l2 _] using rev_ind.
  - apply app_inj_tail in Heq as [-> ->]. by apply Ht.
  - rewrite app_comm_cons, app_assoc in Heq.
    apply app_inj_tail in Heq as [-> ->]. by eapply Hl.
Qed.

Lemma for_each_marked body :
  returns_marked graph body →
  ∀ l st st', for_each body l st = Done st' → dfs_inv graph st →
    dfs_inv graph st' ∧ (∀ t, t ∈ l → t ∈ visited st') ∧ visited st ⊆ visited st'.
Proof.
  intros Hbody l. induction l as [|t l IH]; intros st st' Hrun Hinv; simpl in Hrun.
  - injection Hrun as <-. split_and!; [done | by intros ? ?%elem_of_nil | done].
  - apply bind_Done in Hrun as (st1 & H1 & H2).
    destruct (Hbody _ _ _ H1 Hinv) as (Hinv1 & Ht & Hsub1).
    destruct (IH _ _ H2 Hinv1) as (Hinv' & Hl & Hsub2).
    split_and!; [done | | set_solver].
    intros y [->|Hy]%elem_of_cons; [set_solver | by apply Hl].
Qed.

Lemma visit_marked depth : returns_marked graph (visit depth graph).
Proof.
  induction depth as [|depth IH]; intros t st st' Hrun Hinv; simpl in Hrun; [done|].
  destruct (decide (t ∈ temp st)) as [|Hnt]; [done|].
  destruct (decide (t ∈ visited st)) as [Hv|Hnv]; [by injection Hrun as <-|].
  apply bind_Done in Hrun as (st1 & H1 & [= <-]).
  pose proof (for_each_temp _ (visit_temp depth) _ _ _ H1) as Htemp.
  apply (for_each_marked _ IH) in H1 as (Hinv1 & Hdeps & Hsub); simpl in *.
  - destruct Hinv1 as [Hc He Hf Hn Hd].
    assert (t ∉ visited st1) as Hfresh by (rewrite Htemp in Hd; set_solver).
    split_and!; [split; simpl | set_solver | set_solver].
    + intros y d [Hy| ->%elem_of_singleton]%elem_of_union Hyd; [set_solver|].
      apply elem_of_union_l, Hdeps, Hyd.
    + intros y. rewrite elem_of_app, list_elem_of_singleton, elem_of_union,
        elem_of_singleton, He. done.
    + apply dependencies_first_snoc; [done|].
      intros d Hd'. apply He, Hdeps, Hd'.
    + apply NoDup_app. split_and!; [done | | apply NoDup_singleton].
      intros y Hy ->%list_elem_of_singleton. by apply Hfresh, He.
    + rewrite Htemp. set_solver.
  - destruct Hinv as [Hc He Hf Hn Hd]. split; simpl; [done..|set_solver].
Qed.

(** *** A call that raises has found a cycle *)

Lemma for_each_raises body :
  raises_on_cycle graph body →
  (∀ t st st', body t st = Done st' → temp st' = temp st) →
  ∀ l st msg, for_each body l st = Raise (ValueError msg) →
    (∀ t, t ∈ l → on_path graph st t) →
    has_cycle graph ∧ msg = circular_message.
Proof.
  intros Hbody Htemp l. induction l as [|t l IH]; intros st msg Hrun Hpath; simpl in Hrun.
  - done.
  - apply bind_Raise in Hrun as [H1|(st1 & H1 & H2)].
    + eapply Hbody; [done|]. apply Hpath, elem_of_cons; by left.
    + eapply IH; [done|]. intros y Hy z Hz. rewrite (Htemp _ _ _ H1) in Hz.
      apply Hpath; [by apply elem_of_cons; right | done].
Qed.

Lemma visit_raises depth : raises_on_cycle graph (visit depth graph).
Proof.
  induction depth as [|depth IH]; intros t st msg Hrun Hpath; simpl in Hrun; [done|].
  destruct (decide (t ∈ temp st)) as [Ht|Hnt].
  - injection Hrun as <-. split; [|done]. exists t. by apply Hpath.
  - destruct (decide (t ∈ visited st)); [done|].
    apply bind_Raise in Hrun as [H1|(st1 & _ & [=])].
    eapply (for_each_raises _ IH (visit_temp depth)); [done|].
    intros d Hd y Hy; simpl in Hy.
    apply elem_of_union in Hy as [Hy| ->%elem_of_singleton].
    + eapply tc_r; [by apply Hpath | done].
    + by apply tc_once.
Qed.

(** *** Deep enough, the walk never reaches the recursion limit *)

Lemma depends_on_universe t d : depends_on graph t d → d ∈ universe graph.
Proof.
  unfold depends_on, get_default, universe, nodes. intros Hd.
  apply elem_of_list_to_set, elem_of_app. right.
  induction graph as [|[k v] g IH]; simpl in *; [by apply elem_of_nil in Hd|].
  apply elem_of_app. destruct (decide (k = t)); [by left | right; auto].
Qed.

Lemma key_universe t : t ∈ keys graph → t ∈ universe graph.
Proof. intros Ht. apply elem_of_list_to_set, elem_of_app. by left. Qed.

Lemma universe_size : (size (universe graph) ≤ length (nodes graph))%nat.
Proof.
  unfold universe. induction (nodes graph) as [|x l IH].
  - rewrite list_to_set_nil, size_empty. simpl. lia.
  - rewrite list_to_set_cons, size_union_alt, size_singleton.
    assert (size (list_to_set l ∖ {[x]} : gset string) ≤ size (list_to_set l : gset string))%nat
      by (apply subseteq_size; set_solver).
    simpl. lia.
Qed.

Lemma for_each_depth depth body :
  never_exhausted graph depth body →
  (∀ t st st', body t st = Done st' → temp st' = temp st) →
  ∀ l st msg, (∀ t, t ∈ l → t ∈ universe graph) →
    (size (universe graph ∖ temp st) < depth)%nat →
    for_each body l st ≠ Raise (RecursionError msg).
Proof.
  intros Hbody Htemp l. induction l as [|t l IH]; intros st msg Hl Hsz Hrun; simpl in Hrun.
  - done.
  - apply bind_Raise in Hrun as [H1|(st1 & H1 & H2)].
    + eapply Hbody; [| done | done]. apply Hl, elem_of_cons; by left.
    + eapply IH; [| | done].
      * intros y Hy. apply Hl, elem_of_cons; by right.
      * by rewrite (Htemp _ _ _ H1).
Qed.

Lemma visit_depth depth : never_exhausted graph depth (visit depth graph).
Proof.
  induction depth as [|depth IH]; intros t st msg Ht Hsz Hrun; simpl in Hrun; [lia|].
  destruct (decide (t ∈ temp st)) as [|Hnt]; [done|].
  destruct (decide (t ∈ visited st)); [done|].
  apply bind_Raise in Hrun as [H1|(st1 & _ & [=])].
  eapply (for_each_depth _ _ IH (visit_temp depth)); [| | done]; simpl.
  - intros d Hd. by eapply depends_on_universe.
  - assert (universe graph ∖ (temp st ∪ {[t]}) ⊂ universe graph ∖ temp st) as Hlt.
    { split; [set_solver|]. intros Hsub.
      assert (t ∈ universe graph ∖ temp st) as Hin by set_solver.
      apply Hsub in Hin. set_solver. }
    apply subset_size in Hlt. lia.
Qed.

(** The only [RecursionError] is the interpreter's. *)
Lemma for_each_recursion_message (body : string → dfs_state → outcome dfs_state) :
  (∀ t st msg, body t st = Raise (RecursionError msg) → msg = recursion_message) →
  ∀ l st msg, for_each body l st = Raise (RecursionError msg) → msg = recursion_message.
Proof.
  intros Hbody l. induction l as [|t l IH]; intros st msg Hrun; simpl in Hrun; [done|].
  apply bind_Raise in Hrun as [H1|(st1 & _ & H2)]; eauto.
Qed.

Lemma visit_recursion_message depth : ∀ t st msg,
  visit depth graph t st = Raise (RecursionError msg) → msg = recursion_message.
Proof.
  induction depth as [|depth IH]; intros t st msg Hrun; simpl in Hrun.
  - by injection Hrun as <-.
  - destruct (decide (t ∈ temp st)); [done|].
    destruct (decide (t ∈ visited st)); [done|].
    apply bind_Raise in Hrun as [H1|(st1 & _ & [=])].
    by eapply (for_each_recursion_message _ IH).
Qed.

(** *** The loop over the keys and the three possible results *)

Lemma depends_on_key t d : depends_on graph t d → t ∈ keys graph.
Proof.
  unfold depends_on, get_default, keys. intros Hd.
  induction graph as [|[k v] g IH]; simpl in *; [by apply elem_of_nil in Hd|].
  apply elem_of_cons. destruct (decide (k = t)); [by left | right; auto].
Qed.

Lemma dependencies_first_tc l t d :
  dependencies_first graph l → tc (depends_on graph) t d →
  ∀ l1 l2, l = l1 ++ t :: l2 → d ∈ l1.
Proof.
  intros Hl Htc. induction Htc as [x y Hxy|x y z Hxy _ IH]; intros l1 l2 Heq.
  - by eapply Hl.
  - assert (y ∈ l1) as (l1a & l1b & ->)%list_elem_of_split by by eapply Hl.
    rewrite <-app_assoc in Heq. simpl in Heq.
    apply IH in Heq. apply elem_of_app. by left.
Qed.

Lemma dfs_inv_acyclic st :
  dfs_inv graph st → (∀ t, t ∈ keys graph → t ∈ visited st) → ¬ has_cycle graph.
Proof.
  intros [Hc He Hf Hn Hd] Hkeys [t Ht].
  assert (t ∈ order st) as (l1 & l2 & Heq)%list_elem_of_split.
  { apply He, Hkeys. inversion Ht; by eapply depends_on_key. }
  pose proof (dependencies_first_tc _ _ _ Hf Ht _ _ Heq) as Hin.
  rewrite Heq in Hn. apply NoDup_app in Hn as (_ & Hn & _).
  apply (Hn t Hin). by left.
Qed.

Lemma topological_sort_unfold depth :
  _topological_sort depth graph
  = bind (for_each (visit_root depth graph) (keys graph) initial)
      (λ st, Done (reverse (order st))).
Proof. reflexivity. Qed.

Lemma visit_root_temp depth t st st' :
  visit_root depth graph t st = Done st' → temp st' = temp st.
Proof.
  unfold visit_root. destruct (decide _); [by intros [= <-] | apply visit_temp].
Qed.

Lemma initial_inv : dfs_inv graph initial.
Proof.
  split; simpl; [set_solver | set_solver | | constructor | set_solver].
  intros l1 t l2 d Heq _. by destruct l1.
Qed.

Lemma topological_sort_deep_enough depth msg :
  deep_enough depth graph → _topological_sort depth graph ≠ Raise (RecursionError msg).
Proof.
  unfold deep_enough. intros Hdeep. rewrite topological_sort_unfold.
  intros [Hrun|(st & _ & [=])]%bind_Raise. revert Hrun.
  apply (for_each_depth depth).
  - intros t st msg' Ht Hsz. unfold visit_root.
    destruct (decide _); [done | by apply visit_depth].
  - apply visit_root_temp.
  - apply key_universe.
  - assert (size (universe graph ∖ temp initial) ≤ size (universe graph))%nat
      by (apply subseteq_size; set_solver).
    lia.
Qed.

Lemma topological_sort_RecursionError depth msg :
  _topological_sort depth graph = Raise (RecursionError msg) →
  msg = recursion_message ∧ ¬ deep_enough depth graph.
Proof.
  intros Hrun. split.
  - rewrite topological_sort_unfold in Hrun.
    apply bind_Raise in Hrun as [Hrun|(st & _ & [=])].
    eapply for_each_recursion_message; [|done].
    intros t st msg' Hr. unfold visit_root in Hr.
    destruct (decide _); [done | by eapply visit_recursion_message].
  - intros Hdeep. by eapply topological_sort_deep_enough.
Qed.

Lemma topological_sort_ValueError depth msg :
  _topological_sort depth graph = Raise (ValueError msg) →
  has_cycle graph ∧ msg = circular_message.
Proof.
  rewrite topological_sort_unfold.
  intros [Hrun|(st & _ & [=])]%bind_Raise. revert Hrun.
  intros Hrun. eapply for_each_raises; [| apply visit_root_temp | done |].
  - intros t st msg' Hr Hp. unfold visit_root in Hr.
    destruct (decide _); [done | by eapply visit_raises].
  - intros t _ y Hy. simpl in Hy. set_solver.
Qed.

Lemma topological_sort_Done depth l :
  _topological_sort depth graph = Done l →
  ¬ has_cycle graph ∧ NoDup l ∧ dependents_first graph l ∧
  (∀ t, t ∈ keys graph → t ∈ l) ∧ (∀ t d, depends_on graph t d → d ∈ l).
Proof.
  rewrite topological_sort_unfold.
  intros (st & Hrun & [= <-])%bind_Done.
  eapply for_each_marked in Hrun as (Hinv & Hkeys & _); [| | apply initial_inv].
  2:{ intros t st0 st' Hr Hi. unfold visit_root in Hr.
      destruct (decide _); [injection Hr as <-; done | by eapply visit_marked]. }
  split; [by eapply dfs_inv_acyclic|].
  destruct Hinv as [Hc He Hf Hn Hd].
  split_and!.
  - by rewrite reverse_Permutation.
  - intros l1 t l2 d Heq Hdep.
    apply (f_equal reverse) in Heq.
    rewrite reverse_involutive, reverse_app, reverse_cons, <-app_assoc in Heq.
    simpl in Heq. apply elem_of_reverse. by eapply Hf.
  - intros t Ht. apply elem_of_reverse, He, Hkeys, Ht.
  - intros t d Hdep. apply elem_of_reverse, He.
    eapply Hc; [|done]. eapply Hkeys, depends_on_key, Hdep.
Qed.
End dfs.

(** ** Dictionaries *)

Section dict_facts.
Context {V : Type}.
Implicit Types (d : dict V) (k : string) (v : V).

Lemma get_set_eq d k v : get (Py.set d k v) k = Some v.
Proof.
  induction d as [|[k' v'] d IH]; simpl.
  - by rewrite decide_True.
  - destruct (decide (k' = k)) as [->|Hne]; simpl.
    + by rewrite decide_True.
    + by rewrite decide_False.
Qed.

Lemma get_set_ne d k k' v : k ≠ k' → get (Py.set d k v) k' = get d k'.
Proof.
  intros Hne. induction d as [|[k0 v0] d IH]; simpl.
  - by rewrite decide_False.
  - destruct (decide (k0 = k)) as [->|Hne0]; simpl.
    + by rewrite !decide_False.
    + destruct (decide (k0 = k')); done.
Qed.

Lemma get_is_Some d k : is_Some (get d k) ↔ k ∈ keys d.
Proof.
  unfold keys. induction d as [|[k' v'] d IH]; simpl.
  - split; [by intros [] | by intros ?%elem_of_nil].
  - rewrite elem_of_cons. destruct (decide (k' = k)) as [->|Hne]; simpl.
    + split; eauto.
    + rewrite IH. naive_solver.
Qed.

Lemma contains_keys d k : contains d k = true ↔ k ∈ keys d.
Proof. unfold contains. by rewrite bool_decide_eq_true, get_is_Some. Qed.

Lemma keys_set d k v :
  keys (Py.set d k v) = if decide (k ∈ keys d) then keys d else keys d ++ [k].
Proof.
  unfold keys. induction d as [|[k' v'] d IH]; [done|].
  cbn [Py.set]. destruct (decide (k' = k)) as [->|Hne]; csimpl.
  - by rewrite decide_True by (apply elem_of_cons; by left).
  - rewrite IH. destruct (decide (k ∈ d.*1)) as [Hin|Hnin].
    + by rewrite decide_True by (apply elem_of_cons; by right).
    + rewrite decide_False; [done|].
      intros [?|?]%elem_of_cons; congruence.
Qed.

Lemma elem_of_keys_set d k v k' : k' ∈ keys (Py.set d k v) ↔ k' = k ∨ k' ∈ keys d.
Proof.
  rewrite keys_set. destruct (decide _).
  - naive_solver.
  - rewrite elem_of_app, list_elem_of_singleton. naive_solver.
Qed.

Lemma NoDup_keys_set d k v : NoDup (keys d) → NoDup (keys (Py.set d k v)).
Proof.
  intros Hd. rewrite keys_set. destruct (decide _); [done|].
  apply NoDup_app. split_and!; [done | | apply NoDup_singleton].
  by intros x Hx ->%list_elem_of_singleton.
Qed.

Lemma get_items d k v : NoDup (keys d) → (k, v) ∈ items d → get d k = Some v.
Proof.
  unfold keys, items. induction d as [|[k' v'] d IH]; simpl.
  - by intros _ ?%elem_of_nil.
  - intros [Hk' Hd]%NoDup_cons [[= <- <-]|Hin]%elem_of_cons.
    + by rewrite decide_True.
    + rewrite decide_False; [by apply IH|].
      intros ->. apply Hk'. apply list_elem_of_fmap. by exists (k, v).
Qed.

Context (f : string → V).

Lemma get_fill l : ∀ d k,
  get (fill f d l) k = if decide (k ∈ l) then Some (f k) else get d k.
Proof.
  induction l as [|x l IH]; intros d k; [done|].
  cbn [fill foldl]. fold (fill f (Py.set d x (f x)) l).
  rewrite IH. destruct (decide (k ∈ l)) as [Hin|Hnin].
  - by rewrite decide_True by (apply elem_of_cons; by right).
  - destruct (decide (x = k)) as [->|Hne].
    + rewrite get_set_eq. by rewrite decide_True by (apply elem_of_cons; by left).
    + rewrite get_set_ne by done. rewrite decide_False; [done|].
      intros [?|?]%elem_of_cons; congruence.
Qed.

Lemma elem_of_keys_fill l : ∀ d k, k ∈ keys (fill f d l) ↔ k ∈ l ∨ k ∈ keys d.
Proof.
  induction l as [|x l IH]; intros d k; simpl.
  - rewrite elem_of_nil. naive_solver.
  - rewrite IH, elem_of_keys_set, elem_of_cons. naive_solver.
Qed.

Lemma NoDup_keys_fill l : ∀ d, NoDup (keys d) → NoDup (keys (fill f d l)).
Proof.
  induction l as [|x l IH]; intros d Hd; simpl; [done|].
  by apply IH, NoDup_keys_set.
Qed.
End dict_facts.

(** ** Sorting *)

Section sort_facts.
Context {A K : Type} (lt : K → K → bool) (key : A → K) (le : relation K).
Hypothesis lt_le : ∀ a b, lt a b = true → le a b.
Hypothesis ge_le : ∀ a b, lt a b = false → le b a.

Local Abbreviation by_key := (λ x y : A, le (key x) (key y)).

Lemma insert_sorted_Permutation x l : insert_sorted lt key x l ≡ₚ x :: l.
Proof.
  induction l as [|y l IH]; simpl; [done|].
  destruct (lt (key y) (key x)); [|done].
  rewrite IH. apply Permutation_swap.
Qed.

Lemma sort_by_Permutation l : sort_by lt key l ≡ₚ l.
Proof.
  induction l as [|x l IH]; simpl; [done|].
  by rewrite insert_sorted_Permutation, IH.
Qed.

Lemma insert_sorted_HdRel x y l :
  by_key y x → HdRel by_key y l → HdRel by_key y (insert_sorted lt key x l).
Proof.
  intros Hyx Hl. destruct l as [|z l]; simpl; [by constructor|].
  destruct (lt (key z) (key x)); constructor; [|done].
  by inversion Hl.
Qed.

Lemma insert_sorted_Sorted x l :
  Sorted by_key l → Sorted by_key (insert_sorted lt key x l).
Proof.
  induction 1 as [|y l Hl IH Hy]; simpl; [by repeat constructor|].
  destruct (lt (key y) (key x)) eqn:Hlt.
  - constructor; [done|]. apply insert_sorted_HdRel; [|done]. by apply lt_le.
  - repeat constructor; [done..|]. by apply ge_le.
Qed.

Lemma sort_by_Sorted l : Sorted by_key (sort_by lt key l).
Proof.
  induction l as [|x l IH]; simpl; [constructor|].
  by apply insert_sorted_Sorted.
Qed.

Lemma sort_by_reverse_Permutation l : sort_by_reverse lt key l ≡ₚ l.
Proof.
  unfold sort_by_reverse.
  by rewrite reverse_Permutation, sort_by_Permutation, reverse_Permutation.
Qed.

Lemma sort_by_reverse_Sorted l : Sorted (flip by_key) (sort_by_reverse lt key l).
Proof. apply Sorted_reverse, sort_by_Sorted. Qed.
End sort_facts.

(** The sort is stable: elements with one and the same key keep the order
    they had in the input. *)
Section sort_stable.
Context {A K : Type} `{EqDecision K} (lt : K → K → bool) (key : A → K).
Hypothesis lt_irrefl : ∀ k, lt k k = false.

Lemma insert_sorted_filter_key k x l :
  filter (λ y, key y = k) (insert_sorted lt key x l)
  = filter (λ y, key y = k) (x :: l).
Proof.
  induction l as [|y l IH]; simpl; [done|].
  destruct (lt (key y) (key x)) eqn:Hlt; [|done].
  rewrite (filter_cons _ y), IH, !(filter_cons _ x), (filter_cons _ y).
  destruct (decide (key x = k)) as [Hx|Hx]; [|done].
  destruct (decide (key y = k)) as [Hy|Hy]; [|done].
  rewrite Hx, Hy, lt_irrefl in Hlt. done.
Qed.

Lemma sort_by_stable k l :
  filter (λ y, key y = k) (sort_by lt key l) = filter (λ y, key y = k) l.
Proof.
  induction l as [|x l IH]; simpl; [done|].
  by rewrite insert_sorted_filter_key, !(filter_cons _ x), IH.
Qed.

Lemma sort_by_reverse_stable k l :
  filter (λ y, key y = k) (sort_by_reverse lt key l) = filter (λ y, key y = k) l.
Proof.
  unfold sort_by_reverse.
  by rewrite filter_reverse, sort_by_stable, filter_reverse, reverse_involutive.
Qed.
End sort_stable.

(** ** The store *)

Section store.
Implicit Types (σ : state) (r task : ref) (k task_id agent_id : string).

Lemma tuple_lt_le a b : tuple_lt a b = true → key_le a b.
Proof. unfold tuple_lt, key_le. destruct a, b; simpl. lia. Qed.

Lemma tuple_ge_le a b : tuple_lt a b = false → key_le b a.
Proof. unfold tuple_lt, key_le. destruct a, b; simpl. lia. Qed.

Lemma optimize_schedule_fill σ :
  (optimize_schedule σ).1
  = fill (agent_tasks (objects σ) (tasks (self σ))) [] (agents (self σ)).
Proof. reflexivity. Qed.

Lemma agent_tasks_Sorted h table agent :
  Sorted (by_priority_then_due h) (agent_tasks h table agent).
Proof.
  apply (sort_by_Sorted tuple_lt (schedule_key h) key_le);
    [apply tuple_lt_le | apply tuple_ge_le].
Qed.

Lemma agent_tasks_Permutation h table agent :
  agent_tasks h table agent
  ≡ₚ filter (λ r, assigned_to (h r) = agent) (values table).
Proof. apply sort_by_Permutation. Qed.

Lemma tuple_lt_irrefl (a : Z * Z) : tuple_lt a a = false.
Proof. unfold tuple_lt. destruct a; simpl. lia. Qed.

Lemma agent_tasks_stable h table agent (a : Z * Z) :
  filter (λ r, schedule_key h r = a) (agent_tasks h table agent)
  = filter (λ r, schedule_key h r = a)
      (filter (λ r, assigned_to (h r) = agent) (values table)).
Proof. apply sort_by_stable, tuple_lt_irrefl. Qed.

Lemma elem_of_agent_tasks h table agent r :
  r ∈ agent_tasks h table agent ↔ assigned_to (h r) = agent ∧ r ∈ values table.
Proof. by rewrite agent_tasks_Permutation, list_elem_of_filter. Qed.

(** The keys of the table only grow, and a key keeps its reference. *)
Lemma run_call_get σ c k r :
  get (tasks (self σ)) k = Some r → get (tasks (self (run_call σ c))) k = Some r.
Proof.
  intros Hk. destruct c as [task|task_id agent_id|task_id new_status|]; simpl.
  - unfold add_task. destruct (contains _ _) eqn:Hc; simpl; [done|].
    rewrite get_set_ne; [done|]. intros Heq. rewrite Heq in Hc.
    apply not_true_iff_false in Hc. apply Hc, contains_keys, get_is_Some. eauto.
  - unfold assign_task. destruct (get _ task_id); [|done].
    by destruct (bool_decide _).
  - unfold update_task_status. by destruct (get _ task_id).
  - done.
Qed.

Lemma run_calls_get cs : ∀ σ k r,
  get (tasks (self σ)) k = Some r → get (tasks (self (run_calls σ cs))) k = Some r.
Proof.
  induction cs as [|c cs IH]; intros σ k r Hk; simpl; [done|].
  by apply IH, run_call_get.
Qed.

Lemma add_task_true_get task σ :
  (add_task task σ).1 = true →
  get (tasks (self (add_task task σ).2)) (id (objects σ task)) = Some task.
Proof.
  unfold add_task. destruct (contains _ _); simpl; [done|].
  intros _. apply get_set_eq.
Qed.
End store.

(** ** Statements about the store *)

(** C7, as the code has it. Once [add_task] has stored a task under an
    id, every later [add_task] of a task carrying that id returns [False]
    and leaves the whole state as it was, whatever calls of the store's
    methods happen in between; the table still maps the id to the task
    stored first. *)
Theorem add_task_duplicate_rejected σ cs1 task cs2 task' :
  let σ1 := run_calls σ cs1 in
  let σ2 := run_calls (add_task task σ1).2 cs2 in
  (add_task task σ1).1 = true →
  id (objects σ2 task') = id (objects σ1 task) →
  add_task task' σ2 = (false, σ2)
  ∧ get (tasks (self σ2)) (id (objects σ1 task)) = Some task.
Proof.
  intros σ1 σ2 Hadd Hid.
  pose proof (run_calls_get cs2 _ _ _ (add_task_true_get _ _ Hadd)) as Hget.
  fold σ2 in Hget. split; [|done].
  unfold add_task. rewrite Hid.
  assert (contains (tasks (self σ2)) (id (objects σ1 task)) = true) as ->; [|done].
  apply contains_keys, get_is_Some. eauto.
Qed.

Lemma add_task_duplicate_rejected_witness :
  add_task 2%nat
    (run_calls (add_task 0%nat (run_calls (sample_state ["agent_1"]) [])).2
       [AddTask 1%nat; AssignTask "task_1" "agent_1"; OptimizeSchedule])
  = (false,
     run_calls (add_task 0%nat (run_calls (sample_state ["agent_1"]) [])).2
       [AddTask 1%nat; AssignTask "task_1" "agent_1"; OptimizeSchedule])
  ∧ get (tasks (self
       (run_calls (add_task 0%nat (run_calls (sample_state ["agent_1"]) [])).2
          [AddTask 1%nat; AssignTask "task_1" "agent_1"; OptimizeSchedule])))
      (id (objects (run_calls (sample_state ["agent_1"]) []) 0%nat)) = Some 0%nat.
Proof.
  apply (add_task_duplicate_rejected (sample_state ["agent_1"]) [] 0%nat
           [AddTask 1%nat; AssignTask "task_1" "agent_1"; OptimizeSchedule] 2%nat);
    reflexivity.
Defined.

(** C7, as stated, fails: the store raises no error for a reused id.
    [add_task] has two exits and both return a boolean; a second task
    carrying the id "task_1" is turned away by the value [False], the
    same value in the same state for every further attempt. *)
Lemma add_task_duplicate_returns_False :
  (add_task 0%nat (sample_state ["agent_1"])).1 = true
  ∧ id (sample_heap 2%nat) = id (sample_heap 0%nat)
  ∧ add_task 2%nat (add_task 0%nat (sample_state ["agent_1"])).2
    = (false, (add_task 0%nat (sample_state ["agent_1"])).2)
  ∧ add_task 2%nat (add_task 2%nat (add_task 0%nat (sample_state ["agent_1"])).2).2
    = (false, (add_task 0%nat (sample_state ["agent_1"])).2).
Proof. by split_and!. Qed.

(** C9. A successful [assign_task] writes the [assigned_to] attribute of
    the one task object stored under the id and nothing else: the status
    and every other attribute of that object, every other object, the
    table, the roster and the stored schedule are as before. *)
Theorem assign_task_frame σ task_id agent_id :
  task_id ∈ keys (tasks (self σ)) →
  agent_id ∈ agents (self σ) →
  ∃ r, get (tasks (self σ)) task_id = Some r
    ∧ (assign_task task_id agent_id σ).1 = true
    ∧ self (assign_task task_id agent_id σ).2 = self σ
    ∧ assigned_to (objects (assign_task task_id agent_id σ).2 r) = agent_id
    ∧ status (objects (assign_task task_id agent_id σ).2 r) = status (objects σ r)
    ∧ id (objects (assign_task task_id agent_id σ).2 r) = id (objects σ r)
    ∧ title (objects (assign_task task_id agent_id σ).2 r) = title (objects σ r)
    ∧ description (objects (assign_task task_id agent_id σ).2 r)
      = description (objects σ r)
    ∧ priority (objects (assign_task task_id agent_id σ).2 r) = priority (objects σ r)
    ∧ due_date (objects (assign_task task_id agent_id σ).2 r) = due_date (objects σ r)
    ∧ dependencies (objects (assign_task task_id agent_id σ).2 r)
      = dependencies (objects σ r)
    ∧ scheduled_start (objects (assign_task task_id agent_id σ).2 r)
      = scheduled_start (objects σ r)
    ∧ scheduled_end (objects (assign_task task_id agent_id σ).2 r)
      = scheduled_end (objects σ r)
    ∧ calendar_event_id (objects (assign_task task_id agent_id σ).2 r)
      = calendar_event_id (objects σ r)
    ∧ (∀ r', r' ≠ r → objects (assign_task task_id agent_id σ).2 r' = objects σ r').
Proof.
  intros [r Hr]%get_is_Some Hagent. exists r.
  unfold assign_task. rewrite Hr, bool_decide_eq_true_2 by done. simpl.
  unfold write. rewrite decide_True by done.
  split_and!; try done.
  intros r' Hne. by rewrite decide_False.
Qed.

Lemma assign_task_frame_witness :
  ∃ r, get (tasks (self (add_task 0%nat (sample_state ["agent_2"])).2)) "task_1" = Some r
    ∧ (assign_task "task_1" "agent_2" (add_task 0%nat (sample_state ["agent_2"])).2).1 = true
    ∧ status (objects (assign_task "task_1" "agent_2"
                         (add_task 0%nat (sample_state ["agent_2"])).2).2 r)
      = "pending".
Proof.
  destruct (assign_task_frame (add_task 0%nat (sample_state ["agent_2"])).2
              "task_1" "agent_2") as (r & Hr & Hok & _ & _ & Hst & _).
  - vm_compute. apply list_elem_of_here.
  - vm_compute. apply list_elem_of_here.
  - exists r. split_and!; [done | done |].
    rewrite Hst. vm_compute in Hr. injection Hr as <-. reflexivity.
Defined.

(** C8. Running [optimize_schedule] again on the state the first run
    left (no task or roster change in between) returns the same
    dictionary of per-agent lists and leaves the state as it is; each list
    holds the tasks assigned to the agent, by ascending priority value and
    then ascending due date, tasks that agree on both in the order of the
    task table. *)
Theorem optimize_schedule_idempotent σ :
  (optimize_schedule (optimize_schedule σ).2).1 = (optimize_schedule σ).1
  ∧ (optimize_schedule (optimize_schedule σ).2).2 = (optimize_schedule σ).2
  ∧ ∀ agent lst,
      get (optimize_schedule σ).1 agent = Some lst →
      Sorted (by_priority_then_due (objects σ)) lst
      ∧ lst ≡ₚ filter (λ r, assigned_to (objects σ r) = agent)
                 (values (tasks (self σ)))
      ∧ ∀ k, filter (λ r, schedule_key (objects σ) r = k) lst
             = filter (λ r, schedule_key (objects σ) r = k)
                 (filter (λ r, assigned_to (objects σ r) = agent)
                    (values (tasks (self σ)))).
Proof.
  split_and!; [reflexivity | reflexivity |].
  intros agent lst. rewrite optimize_schedule_fill, get_fill.
  destruct (decide _); [|done]. intros [= <-].
  split_and!;
    [apply agent_tasks_Sorted | apply agent_tasks_Permutation | apply agent_tasks_stable].
Qed.

Lemma optimize_schedule_idempotent_witness :
  Sorted (by_priority_then_due sample_heap) [1%nat; 0%nat]
  ∧ [1%nat; 0%nat]
    ≡ₚ filter (λ r, assigned_to (sample_heap r) = "agent_1")
         (values (tasks (self (run_calls (sample_state ["agent_1"])
                                 [AddTask 0%nat; AddTask 1%nat])))).
Proof.
  destruct (proj2 (proj2 (optimize_schedule_idempotent
                            (run_calls (sample_state ["agent_1"])
                               [AddTask 0%nat; AddTask 1%nat])))
              "agent_1" [1%nat; 0%nat]) as (Hsorted & Hperm & _).
  - reflexivity.
  - split; [exact Hsorted | exact Hperm].
Defined.

(** C10, as the code has it. After [optimize_schedule] the stored
    mapping is the one returned; its keys are the registered agents, each
    once, every registered agent has an entry (possibly the empty list),
    and a task whose [assigned_to] is not a registered agent is in no
    list.  An empty [assigned_to] is covered only as long as the empty
    string is not itself a registered agent. *)
Theorem optimize_schedule_keys σ :
  current_schedule (self (optimize_schedule σ).2) = (optimize_schedule σ).1
  ∧ NoDup (keys (optimize_schedule σ).1)
  ∧ (∀ agent, agent ∈ keys (optimize_schedule σ).1 ↔ agent ∈ agents (self σ))
  ∧ (∀ agent, agent ∈ agents (self σ) →
       get (optimize_schedule σ).1 agent
       = Some (get_agent_schedule agent (optimize_schedule σ).2))
  ∧ (∀ agent, agent ∉ agents (self σ) →
       get_agent_schedule agent (optimize_schedule σ).2 = [])
  ∧ (∀ r, assigned_to (objects σ r) ∉ agents (self σ) →
       ∀ agent lst, get (optimize_schedule σ).1 agent = Some lst → r ∉ lst).
Proof.
  split_and!.
  - reflexivity.
  - rewrite optimize_schedule_fill. apply NoDup_keys_fill. constructor.
  - intros agent. rewrite optimize_schedule_fill, elem_of_keys_fill.
    unfold keys. rewrite fmap_nil, elem_of_nil. naive_solver.
  - intros agent Hagent.
    change (get_agent_schedule agent (optimize_schedule σ).2)
      with (default [] (get (optimize_schedule σ).1 agent)).
    rewrite optimize_schedule_fill, get_fill. by rewrite decide_True.
  - intros agent Hagent.
    change (get_agent_schedule agent (optimize_schedule σ).2)
      with (default [] (get (optimize_schedule σ).1 agent)).
    rewrite optimize_schedule_fill, get_fill. by rewrite decide_False.
  - intros r Hr agent lst. rewrite optimize_schedule_fill, get_fill.
    destruct (decide _) as [Hagent|]; [|done]. intros [= <-].
    intros [Heq _]%elem_of_agent_tasks. congruence.
Qed.

Lemma optimize_schedule_keys_witness :
  get (optimize_schedule
         (run_calls (sample_state ["agent_1"]) [AddTask 0%nat; AddTask 3%nat])).1
    "agent_1" = Some [0%nat]
  ∧ 3%nat ∉ [0%nat].
Proof.
  split; [reflexivity|].
  destruct (optimize_schedule_keys
              (run_calls (sample_state ["agent_1"]) [AddTask 0%nat; AddTask 3%nat]))
    as (_ & _ & _ & _ & _ & Hunlisted).
  apply (Hunlisted 3%nat) with "agent_1"; [|reflexivity].
  intros Hin. apply list_elem_of_singleton in Hin. discriminate Hin.
Defined.

(** C10, as stated, fails when the empty string is a registered agent:
    the unassigned sample task (its [assigned_to] is empty) lands in the
    list of that agent. *)
Lemma empty_agent_id_listed :
  assigned_to (objects (add_task 3%nat (sample_state [""])).2 3%nat) = ""
  ∧ get (optimize_schedule (add_task 3%nat (sample_state [""])).2).1 ""
    = Some [3%nat].
Proof. split; reflexivity. Qed.

(** ** The calendar sweep *)

Section sweep.
Implicit Types (b f : TimeSlot) (busy_slots : list TimeSlot).

Lemma sweep_free_from busy_slots t_max : ∀ current_time available_slots,
  (let '(c, a) := foldl sweep_step (current_time, available_slots) busy_slots in
   if c <? t_max then a ++ [slot c t_max true] else a)
  = available_slots ++ free_from current_time busy_slots t_max.
Proof.
  induction busy_slots as [|b rest IH]; intros cur acc; simpl.
  - destruct (cur <? t_max); [done | by rewrite app_nil_r].
  - rewrite IH. destruct (cur <? start_time b); [|done].
    by rewrite <-app_assoc.
Qed.

Lemma get_availability_free_from busy_slots t_min t_max :
  get_availability busy_slots t_min t_max = free_from t_min busy_slots t_max.
Proof. apply (sweep_free_from busy_slots t_max t_min []). Qed.

Lemma free_from_sound t_max busy_slots : ∀ current_time f,
  StronglySorted follows busy_slots →
  Forall (λ b, current_time ≤ end_time b ∧ start_time b ≤ t_max) busy_slots →
  f ∈ free_from current_time busy_slots t_max →
  is_available f = true ∧ current_time ≤ start_time f ∧ start_time f < end_time f
  ∧ end_time f ≤ t_max ∧ ∀ b, b ∈ busy_slots → ¬ intersects f b.
Proof.
  induction busy_slots as [|b rest IH]; intros cur f Hsorted Hwin Hf; simpl in Hf.
  - destruct (cur <? t_max) eqn:Hlt; [|by apply elem_of_nil in Hf].
    apply list_elem_of_singleton in Hf as ->. simpl.
    split_and!; [done | lia | lia | lia |]. by intros b ?%elem_of_nil.
  - apply StronglySorted_inv in Hsorted as [Hrest Hb].
    apply Forall_cons in Hwin as [[Hcur Hstart] Hwin].
    rewrite Forall_forall in Hb. rewrite Forall_forall in Hwin.
    apply elem_of_app in Hf as [Hf|Hf].
    + destruct (cur <? start_time b) eqn:Hlt; [|by apply elem_of_nil in Hf].
      apply list_elem_of_singleton in Hf as ->. simpl.
      split_and!; [done | lia | lia | lia |].
      intros b' [->|Hb']%elem_of_cons; unfold intersects; simpl; [lia|].
      destruct (Hb b' Hb') as [? ?]. lia.
    + apply IH in Hf as (Hav & Hlo & Hne & Hhi & Hdisj); [| done |].
      * split_and!; [done | lia | done | done |].
        intros b' [->|Hb']%elem_of_cons; [unfold intersects; lia | by apply Hdisj].
      * apply Forall_forall. intros b' Hb'.
        destruct (Hb b' Hb') as [? ?]. destruct (Hwin b' Hb') as [? ?]. lia.
Qed.

Lemma free_from_complete t_max busy_slots : ∀ current_time p,
  current_time ≤ p < t_max →
  (∀ b, b ∈ busy_slots → ¬ covers b p) →
  ∃ f, f ∈ free_from current_time busy_slots t_max ∧ covers f p.
Proof.
  induction busy_slots as [|b rest IH]; intros cur p Hp Hfree; simpl.
  - exists (slot cur t_max true).
    rewrite (proj2 (Z.ltb_lt _ _)) by lia. split; [by apply list_elem_of_singleton|].
    unfold covers. simpl. lia.
  - destruct (decide (p < start_time b)) as [Hlt|Hge].
    + exists (slot cur (start_time b) true).
      rewrite (proj2 (Z.ltb_lt _ _)) by lia. split.
      * apply elem_of_app. left. by apply list_elem_of_singleton.
      * unfold covers. simpl. lia.
    + destruct (IH (end_time b) p) as (f & Hf & Hcov).
      * assert (¬ covers b p) as Hb by (apply Hfree, elem_of_cons; by left).
        unfold covers in Hb. lia.
      * intros b' Hb'. apply Hfree, elem_of_cons. by right.
      * exists f. split; [|done]. apply elem_of_app. by right.
Qed.



(** The search loop returns the first slot that is long enough. *)
Lemma first_fit_Some duration available_slots s :
  first_fit duration available_slots = Some s →
  ∃ pre f post,
    available_slots = pre ++ f :: post
    ∧ Forall (λ g, duration_of g < duration) pre
    ∧ duration ≤ duration_of f
    ∧ s = slot (start_time f) (start_time f + duration) true.
Proof.
  induction available_slots as [|g l IH]; simpl; [done|].
  destruct (duration <=? end_time g - start_time g) eqn:Hfit.
  - intros [= <-]. exists [], g, l. split_and!; [done | constructor | | done].
    unfold duration_of. lia.
  - intros (pre & f & post & -> & Hpre & Hf & ->)%IH.
    exists (g :: pre), f, post. split_and!; [done | | done | done].
    constructor; [|done]. unfold duration_of. lia.
Qed.

Lemma first_fit_None duration available_slots :
  first_fit duration available_slots = None ↔
  Forall (λ g, duration_of g < duration) available_slots.
Proof.
  induction available_slots as [|g l IH]; simpl; [by split; [constructor|]|].
  rewrite Forall_cons. unfold duration_of at 1.
  destruct (duration <=? end_time g - start_time g) eqn:Hfit.
  - split; [done|]. lia.
  - rewrite IH. split; [|by intros [_ ?]]. split; [lia|done].
Qed.
End sweep.

(** ** Statements about the calendar *)

Global Instance follows_transitive : Transitive follows.
Proof. intros a b c [? ?] [? ?]. unfold follows. lia. Qed.

Global Instance start_order_transitive :
  Transitive (λ a b : TimeSlot, start_time a ≤ start_time b).
Proof. intros a b c ? ?. lia. Qed.



(** C2 fails on the code. [get_availability] takes the busy slots in the
    provider's order, by start time, and sets its cursor to the end of
    each busy slot without comparing it with the cursor.  With the event
    01:00-08:00 followed by the event 02:00-03:00 nested in it, both
    inside the window 00:00-10:00, the cursor moves back from 08:00 to
    03:00, and the slot 03:00-10:00 is returned as available although
    03:00-08:00 lies in the first event: 04:00 is covered by a busy slot
    and by a slot marked available; a search for two hours from 00:00
    is then given 03:00-05:00, inside the first event.  The worked
    example, whose events do not nest, yields its three free slots. *)
Theorem get_availability_marks_busy_time_free :
  Sorted (λ a b, start_time a ≤ start_time b) nested_busy
  ∧ Forall (within 0 (hours 10)) nested_busy
  ∧ get_availability nested_busy 0 (hours 10)
    = [slot 0 (hours 1) true; slot (hours 3) (hours 10) true]
  ∧ intersects (slot (hours 3) (hours 10) true) (slot (hours 1) (hours 8) false)
  ∧ covers (slot (hours 1) (hours 8) false) (hours 4)
  ∧ covers (slot (hours 3) (hours 10) true) (hours 4)
  ∧ find_next_available_slot 0 nested_busy (hours 2) (Some 0)
    = Some (slot (hours 3) (hours 5) true)
  ∧ intersects (slot (hours 3) (hours 5) true) (slot (hours 1) (hours 8) false)
  ∧ get_availability example_busy 0 (hours 10)
    = [slot 0 (hours 2) true; slot (hours 3) (hours 5) true;
       slot (hours 6) (hours 10) true].
Proof.
  split_and!; try reflexivity.
  - repeat constructor; vm_compute; congruence.
  - repeat constructor; vm_compute; congruence.
  - vm_compute. split; congruence.
  - vm_compute. split; congruence.
Qed.




(** ** Redistribution *)

Section redistribution.
Implicit Types (w : dict (list Task)) (task : Task) (agent : string).

Lemma min_from_first_min {A} (key : A → Z) (l : list A) : ∀ pre j best,
  first_min key pre j best →
  ∃ j', first_min key (pre ++ l) j' (min_from key best l).
Proof.
  induction l as [|x l IH]; intros pre j best (Hj & Hmin & Hfirst); simpl.
  - exists j. by rewrite app_nil_r.
  - replace (pre ++ x :: l) with ((pre ++ [x]) ++ l) by by rewrite <-app_assoc.
    pose proof (lookup_lt_Some _ _ _ Hj) as Hlen.
    destruct (key x <? key best) eqn:Hlt.
    + apply (IH _ (length pre)). split_and!.
      * by apply list_lookup_middle.
      * intros y [Hy| ->%list_elem_of_singleton]%elem_of_app; [|lia].
        specialize (Hmin y Hy). lia.
      * intros j' y Hj' Hy. rewrite lookup_app_l in Hy by done.
        apply list_elem_of_lookup_2, Hmin in Hy. lia.
    + apply (IH _ j). split_and!.
      * by rewrite lookup_app_l.
      * intros y [Hy| ->%list_elem_of_singleton]%elem_of_app; [by apply Hmin | lia].
      * intros j' y Hj' Hy. rewrite lookup_app_l in Hy by lia. by eapply Hfirst.
Qed.

Lemma min_by_first_min {A} (key : A → Z) (l : list A) :
  l ≠ [] → ∃ j m, min_by key l = Done m ∧ first_min key l j m.
Proof.
  destruct l as [|x l]; [done|]. intros _.
  destruct (min_from_first_min key l [x] 0%nat x) as [j Hj].
  - split_and!; [done | by intros y ->%list_elem_of_singleton | lia].
  - by exists j, (min_from key x l).
Qed.

Lemma load_snoc (ts : list Task) task : load (ts ++ [task]) = load ts + priority task.
Proof.
  unfold load, Py.sum. rewrite fmap_app.
  induction (priority <$> ts) as [|p ps IH]; simpl in *; lia.
Qed.

Lemma total_items w agent ts :
  NoDup (keys w) → (agent, ts) ∈ items w → total w agent = load ts.
Proof. intros Hw Hin. unfold total, get_default. by rewrite (get_items w agent ts). Qed.

Lemma first_min_items w j m :
  NoDup (keys w) →
  first_min (λ x, load x.2) (items w) j m →
  first_min (total w) (keys w) j m.1 ∧ get w m.1 = Some m.2.
Proof.
  intros Hw (Hj & Hmin & Hfirst).
  assert (∀ x, x ∈ items w → total w x.1 = load x.2) as Htotal.
  { intros [a ts] Hx. by apply total_items. }
  unfold items in *.
  pose proof (list_elem_of_lookup_2 _ _ _ Hj) as Hm.
  split; [split_and!|].
  - unfold keys. by rewrite list_lookup_fmap, Hj.
  - intros b (x & -> & Hx)%list_elem_of_fmap.
    rewrite !Htotal by done. by apply Hmin.
  - intros j' b Hj'. unfold keys. rewrite list_lookup_fmap.
    intros (x & Hx & ->)%fmap_Some.
    rewrite !Htotal; [by eapply Hfirst | by eapply list_elem_of_lookup_2 | done].
  - destruct m as [a ts]. by apply get_items.
Qed.

(** The loop body performs one greedy step on a workload whose keys are
    the roster. *)
Lemma place_greedy task w :
  NoDup (keys w) → keys w ≠ [] →
  ∃ w', place task w = Done w' ∧ greedy_placement (keys w) w task w'.
Proof.
  intros Hw Hne.
  destruct (min_by_first_min (λ x : string * list Task, load x.2) (items w))
    as (j & m & Hmin & Hfm).
  { intros Heq. apply Hne. unfold keys, items in *. by rewrite Heq. }
  apply first_min_items in Hfm as [Hfm Hget]; [|done].
  unfold place. rewrite Hmin. simpl. eexists. split; [done|].
  exists j, m.1. split_and!.
  - done.
  - apply get_set_eq.
  - unfold total at 1. unfold get_default at 1. rewrite get_set_eq. simpl.
    by rewrite load_snoc.
  - intros other Hother. by apply get_set_ne.
  - rewrite keys_set, decide_True; [done|].
    apply get_is_Some. by rewrite Hget.
Qed.

Lemma greedy_placement_prefix roster w task w' agent :
  greedy_placement roster w task w' →
  get_default w agent [] `prefix_of` get_default w' agent [].
Proof.
  intros (j & a & _ & Ha & _ & Hother & _).
  destruct (decide (agent = a)) as [->|Hne].
  - unfold get_default at 2. rewrite Ha. simpl. by apply prefix_app_r.
  - unfold get_default. by rewrite Hother.
Qed.

(** Running the loop over a queue, from a workload whose keys are a
    non-empty roster: it returns, and the keys stay the roster. *)
Lemma for_each_place_Done queue : ∀ w,
  NoDup (keys w) → keys w ≠ [] →
  ∃ w', for_each place queue w = Done w' ∧ keys w' = keys w
        ∧ ∀ agent, get_default w agent [] `prefix_of` get_default w' agent [].
Proof.
  induction queue as [|task queue IH]; intros w Hw Hne; simpl.
  - by exists w.
  - destruct (place_greedy task w Hw Hne) as (w1 & -> & Hstep). simpl.
    pose proof Hstep as (_ & _ & _ & _ & _ & _ & Hkeys).
    destruct (IH w1) as (w' & Hrun & Hkeys' & Hpre); [by rewrite Hkeys..|].
    exists w'. rewrite Hrun, Hkeys', Hkeys. split_and!; [done | done |].
    intros agent. etrans; [|apply Hpre]. by eapply greedy_placement_prefix.
Qed.

Lemma for_each_app {A S} (body : A → S → outcome S) l1 l2 s :
  for_each body (l1 ++ l2) s = bind (for_each body l1 s) (for_each body l2).
Proof.
  revert s. induction l1 as [|x l1 IH]; intros s; simpl; [done|].
  destruct (body x s); simpl; [apply IH | done].
Qed.

Lemma keys_fill_first_occurrences {V} (f : string → V) l : ∀ d : dict V,
  keys (fill f d l) = keys d ++ filter (λ y, y ∉ keys d) (first_occurrences l).
Proof.
  induction l as [|x l IH]; intros d.
  - simpl. by rewrite app_nil_r.
  - cbn [fill foldl first_occurrences]. fold (fill f (Py.set d x (f x)) l).
    rewrite IH, keys_set. destruct (decide (x ∈ keys d)) as [Hin|Hnin].
    + rewrite filter_cons_False by (intros Hx; by apply Hx).
      rewrite list_filter_filter_l; [done|]. intros y Hy ->. by apply Hy.
    + rewrite filter_cons_True by done.
      rewrite <-app_assoc. simpl. do 2 f_equal.
      rewrite list_filter_filter. apply list_filter_iff.
      intros y. rewrite elem_of_app, list_elem_of_singleton. naive_solver.
Qed.

Lemma filter_all {A} (P : A → Prop) `{!∀ x, Decision (P x)} (l : list A) :
  Forall P l → filter P l = l.
Proof.
  induction 1 as [|x l Hx _ IH]; [done|]. by rewrite filter_cons_True, IH.
Qed.

Lemma keys_empty_workload agents :
  keys (empty_workload agents) = first_occurrences agents.
Proof.
  change (empty_workload agents) with (fill (λ _, @nil Task) [] agents).
  rewrite keys_fill_first_occurrences. simpl.
  apply filter_all, Forall_forall. intros y _. apply not_elem_of_nil.
Qed.

Lemma first_occurrences_NoDup l : NoDup l → first_occurrences l = l.
Proof.
  induction 1 as [|x l Hx Hl IH]; simpl; [done|]. rewrite IH. f_equal.
  apply filter_all, Forall_forall. by intros y Hy ->.
Qed.

Lemma first_occurrences_elem l x : x ∈ first_occurrences l ↔ x ∈ l.
Proof.
  induction l as [|y l IH]; simpl; [done|].
  rewrite !elem_of_cons, list_elem_of_filter, IH.
  destruct (decide (x = y)); naive_solver.
Qed.

Lemma NoDup_empty_workload agents : NoDup (keys (empty_workload agents)).
Proof.
  change (empty_workload agents) with (fill (λ _, @nil Task) [] agents).
  apply NoDup_keys_fill. constructor.
Qed.

Lemma get_empty_workload agents agent :
  get_default (empty_workload agents) agent [] = [].
Proof.
  change (empty_workload agents) with (fill (λ _, @nil Task) [] agents).
  unfold get_default. rewrite get_fill. by destruct (decide _).
Qed.
End redistribution.

(** ** Statement about the redistribution *)

(** C3. With a non-empty roster [suggest_task_redistribution] is the
    greedy run over the tasks by descending priority value (the weight):
    each task goes to the agent with the least cumulative weight, the
    first such agent of the roster on a tie, and raises that agent's
    weight by its own; no placed task moves.  Weights 5, 3, 3 over two
    agents give the first agent the task of weight 5 and the second the
    two of weight 3. *)
Theorem suggest_task_redistribution_greedy :
  (∀ tasks agents, agents ≠ [] → greedy_run tasks agents)
  ∧ (∀ agents, NoDup agents → first_occurrences agents = agents)
  ∧ (∃ result,
       suggest_task_redistribution [weight_3; weight_5; weight_3'] ["A"; "B"]
       = Done result
       ∧ result = [("A", [weight_5]); ("B", [weight_3; weight_3'])]
       ∧ total result "A" = 5 ∧ total result "B" = 6).
Proof.
  split_and!; [| apply first_occurrences_NoDup | by eexists].
  intros tasks agents Hne. unfold greedy_run.
  assert (NoDup (keys (empty_workload agents))) as Hnd
    by apply NoDup_empty_workload.
  assert (keys (empty_workload agents) ≠ []) as Hroster.
  { rewrite keys_empty_workload. by destruct agents. }
  split_and!.
  - apply (sort_by_reverse_Permutation Z.ltb priority).
  - apply (sort_by_reverse_Sorted Z.ltb priority Z.le); intros a b; lia.
  - intros p. apply sort_by_reverse_stable, Z.ltb_irrefl.
  - destruct (for_each_place_Done (sorted_tasks tasks) _ Hnd Hroster)
      as (result & Hrun & Hkeys & _).
    exists result. split_and!; [done | by rewrite Hkeys, keys_empty_workload |].
    intros pre task post Hqueue.
    destruct (for_each_place_Done pre _ Hnd Hroster) as (w & Hpre & Hkw & _).
    assert (NoDup (keys w)) as Hndw by by rewrite Hkw.
    assert (keys w ≠ []) as Hnew by by rewrite Hkw.
    destruct (place_greedy task w Hndw Hnew) as (w' & Hplace & Hstep).
    assert (workload_after agents (pre ++ [task]) = Done w') as Hpre'.
    { unfold workload_after. rewrite for_each_app, Hpre. simpl. by rewrite Hplace. }
    exists w, w'. split_and!; [done | done | |].
    + by rewrite <-keys_empty_workload, <-Hkw.
    + pose proof Hstep as (_ & _ & _ & _ & _ & _ & Hkw').
      destruct (for_each_place_Done post w') as (result' & Hpost & _ & Hprefix);
        [by rewrite Hkw' .. |].
      assert (result' = result) as ->; [|done].
      unfold suggest_task_redistribution in Hrun.
      rewrite Hqueue, (cons_middle task pre post), app_assoc, for_each_app in Hrun.
      unfold workload_after in Hpre'. rewrite Hpre' in Hrun. simpl in Hrun.
      congruence.
Qed.

Lemma suggest_task_redistribution_greedy_witness :
  ["A"; "B"] ≠ ([] : list string)
  ∧ greedy_run [weight_3; weight_5; weight_3'] ["A"; "B"].
Proof.
  split; [done|].
  apply (proj1 suggest_task_redistribution_greedy
           [weight_3; weight_5; weight_3'] ["A"; "B"]).
  done.
Defined.

(** ** Dependency chains *)

Section chains.
Implicit Types (n i depth : nat) (tail : list string).

Lemma build_get tasks : ∀ graph key,
  get (foldl (λ g task, Py.set g (id task) (dependencies task)) graph tasks) key
  = match last (filter (λ task, id task = key) tasks) with
    | Some task => Some (dependencies task)
    | None => get graph key
    end.
Proof.
  induction tasks as [|task tasks IH]; intros graph key; [done|].
  cbn [foldl]. rewrite IH, filter_cons.
  destruct (decide (id task = key)) as [<-|Hne].
  - rewrite last_cons, get_set_eq. by destruct (last _).
  - by rewrite get_set_ne.
Qed.

Lemma filter_link i : ∀ k a,
  filter (λ task, id task = pretty i) (link <$> seq a k)
  = if decide (a ≤ i < a + k)%nat then [link i] else [].
Proof.
  induction k as [|k IH]; intros a.
  - rewrite decide_False by lia. done.
  - cbn [seq fmap list_fmap]. rewrite filter_cons, IH. cbn [link sample_task id].
    destruct (decide (pretty a = pretty i)) as [Heq|Hne].
    + apply (inj pretty) in Heq as ->.
      rewrite decide_False, decide_True by lia. done.
    + assert (a ≠ i) by congruence.
      destruct (decide (S a ≤ i < S a + k)%nat).
      * rewrite decide_True by lia. done.
      * rewrite decide_False by lia. done.
Qed.

Lemma chain_get_link n tail i :
  (i < n)%nat →
  get_default (_build_dependency_graph (chain n tail)) (pretty i) [] = [pretty (S i)].
Proof.
  intros Hi. unfold get_default, _build_dependency_graph, chain.
  rewrite build_get, filter_app, filter_link, decide_True by lia.
  rewrite filter_cons, decide_False; [done|].
  cbn [sample_task id]. intros Heq. apply (inj pretty) in Heq. lia.
Qed.

Lemma chain_get_last n tail :
  get_default (_build_dependency_graph (chain n tail)) (pretty n) [] = tail.
Proof.
  unfold get_default, _build_dependency_graph, chain.
  rewrite build_get, filter_app, filter_link, decide_False by lia.
  rewrite filter_cons, decide_True by done. done.
Qed.

Lemma chain_keys_head n tail :
  ∃ rest, keys (_build_dependency_graph (chain n tail)) = pretty 0%nat :: rest.
Proof.
  assert (∀ (ts : list Task) (graph : dict (list string)) k,
            head (keys graph) = Some k →
            head (keys (foldl (λ g task, Py.set g (id task) (dependencies task)) graph ts))
            = Some k) as Hgrow.
  { induction ts as [|task ts IH]; intros graph k Hkeys; [done|].
    cbn [foldl]. apply IH. rewrite keys_set.
    destruct (decide _); [done|]. by destruct (keys graph). }
  assert (head (keys (_build_dependency_graph (chain n tail))) = Some (pretty 0%nat))
    as Hhead.
  { unfold _build_dependency_graph, chain.
    destruct n as [|n]; [done|]. cbn [seq fmap list_fmap app foldl]. by apply Hgrow. }
  destruct (keys _) as [|k rest]; [done|]. injection Hhead as ->. by exists rest.
Qed.

(** A walk down the chain with fewer calls left than links ahead ends in
    [RecursionError]. *)
Lemma visit_chain_deep n tail : ∀ depth i st,
  (i + depth ≤ n)%nat →
  (∀ k, (i ≤ k)%nat → (pretty k ∉ temp st) ∧ (pretty k ∉ visited st)) →
  visit depth (_build_dependency_graph (chain n tail)) (pretty i) st
  = Raise (RecursionError recursion_message).
Proof.
  induction depth as [|depth IH]; intros i st Hle Hfresh; [done|].
  cbn [visit]. destruct (Hfresh i) as [Htemp Hvisited]; [lia|].
  rewrite !decide_False by done.
  rewrite chain_get_link by lia. cbn [for_each].
  rewrite IH; [done | lia |].
  intros k Hk. destruct (Hfresh k) as [? ?]; [lia|]. simpl. split; [|done].
  intros [?| Heq%elem_of_singleton]%elem_of_union; [done|].
  apply (inj pretty) in Heq. lia.
Qed.

(** Whatever its last task depends on, a chain with more links than the
    interpreter allows nested calls makes the run end in
    [RecursionError]. *)
Lemma chain_RecursionError n tail depth :
  (depth ≤ n)%nat →
  optimize_task_sequence depth (chain n tail) = Raise (RecursionError recursion_message).
Proof.
  intros Hle. unfold optimize_task_sequence. rewrite topological_sort_unfold.
  destruct (chain_keys_head n tail) as [rest ->]. cbn [for_each].
  unfold visit_root at 1. rewrite decide_False by (simpl; set_solver).
  rewrite (visit_chain_deep n tail depth 0 initial); [done | lia |].
  intros k _. simpl. set_solver.
Qed.

(** The edges of a chain whose last task depends on nothing lead from
    each numeral to the next. *)
Lemma chain_edge n t d :
  depends_on (_build_dependency_graph (chain n [])) t d →
  ∃ i, t = pretty i ∧ d = pretty (S i).
Proof.
  unfold depends_on, get_default, _build_dependency_graph, chain.
  rewrite build_get.
  destruct (last _) as [task|] eqn:Hlast; [|by intros ?%elem_of_nil].
  apply last_Some_elem_of, list_elem_of_filter in Hlast as [Hid Hin].
  apply elem_of_app in Hin as [Hin|Hin%list_elem_of_singleton].
  - apply list_elem_of_fmap in Hin as (i & -> & _). simpl in *.
    intros ->%list_elem_of_singleton. by exists i.
  - subst task. by intros ?%elem_of_nil.
Qed.

Lemma chain_acyclic n : ¬ has_cycle (_build_dependency_graph (chain n [])).
Proof.
  assert (∀ x y, tc (depends_on (_build_dependency_graph (chain n []))) x y →
            ∃ i j, x = pretty i ∧ y = pretty j ∧ (i < j)%nat) as Hup.
  { intros x y Htc. induction Htc as [x y Hxy|x y z Hxy _ (i & j & Hi & Hj & Hlt)].
    - apply chain_edge in Hxy as (i & -> & ->). exists i, (S i). split_and!; [done..|lia].
    - apply chain_edge in Hxy as (i0 & -> & Heq). subst y z.
      apply (inj pretty) in Hi as <-. exists i0, j. split_and!; [done..|lia]. }
  intros [t (i & j & -> & Heq & Hlt)%Hup]. apply (inj pretty) in Heq. lia.
Qed.

Lemma chain_loop_has_cycle n : has_cycle (_build_dependency_graph (chain n [pretty n])).
Proof.
  exists (pretty n). apply tc_once. unfold depends_on.
  rewrite chain_get_last. apply list_elem_of_here.
Qed.
End chains.

(** ** Statements about the dependency order *)

(** The two results of a run that is deep enough, by whether the graph
    has a cycle. *)
Lemma topological_sort_cases depth graph :
  deep_enough depth graph →
  (has_cycle graph ∧ _topological_sort depth graph = Raise (ValueError circular_message))
  ∨ (¬ has_cycle graph
     ∧ ∃ l, _topological_sort depth graph = Done l ∧ NoDup l ∧ dependents_first graph l
          ∧ (∀ t, t ∈ keys graph → t ∈ l) ∧ (∀ t d, depends_on graph t d → d ∈ l)).
Proof.
  intros Hdeep.
  destruct (_topological_sort depth graph) as [l|[msg|msg]] eqn:Hrun.
  - right. apply topological_sort_Done in Hrun as (Hacyclic & Hrest).
    split; [done|]. by exists l.
  - left. apply topological_sort_ValueError in Hrun as [Hcycle ->]. done.
  - by apply topological_sort_deep_enough in Hrun.
Qed.

(** With a cycle no run returns, however deep the interpreter lets it
    go. *)
Lemma topological_sort_cyclic depth graph :
  has_cycle graph →
  _topological_sort depth graph = Raise (ValueError circular_message)
  ∨ (_topological_sort depth graph = Raise (RecursionError recursion_message)
     ∧ ¬ deep_enough depth graph).
Proof.
  intros Hcycle.
  destruct (_topological_sort depth graph) as [l|[msg|msg]] eqn:Hrun.
  - by apply topological_sort_Done in Hrun as (Hacyclic & _).
  - left. by apply topological_sort_ValueError in Hrun as [_ ->].
  - right. by apply topological_sort_RecursionError in Hrun as [-> ?].
Qed.

(** Without a cycle a run that is deep enough returns every id once, each
    task before the tasks it depends on. *)
Theorem optimize_task_sequence_acyclic depth tasks :
  deep_enough depth (_build_dependency_graph tasks) →
  ¬ has_cycle (_build_dependency_graph tasks) →
  ∃ l, optimize_task_sequence depth tasks = Done l ∧ NoDup l
     ∧ dependents_first (_build_dependency_graph tasks) l
     ∧ ∀ t, t ∈ keys (_build_dependency_graph tasks) → t ∈ l.
Proof.
  intros Hdeep Hacyclic.
  destruct (topological_sort_cases depth (_build_dependency_graph tasks) Hdeep)
    as [[Hcycle _]|[_ (l & Hrun & Hnd & Hfirst & Hkeys & _)]]; [done|].
  by exists l.
Qed.

(** C1 fails on the code. For A depending on B the returned sequence is
    [A, B], whenever the interpreter allows the two nested calls the walk
    makes: the walk appends B and then A, and the final reversal puts the
    dependency B after the task A that needs it. *)
Theorem order_puts_dependency_last :
  (∀ depth, (2 ≤ depth)%nat → optimize_task_sequence depth chain_pair = Done ["A"; "B"])
  ∧ depends_on (_build_dependency_graph chain_pair) "A" "B"
  ∧ ¬ dependencies_first (_build_dependency_graph chain_pair) ["A"; "B"].
Proof.
  assert (depends_on (_build_dependency_graph chain_pair) "A" "B") as Hdep
    by apply list_elem_of_here.
  split_and!; [| done |].
  - intros [|[|depth]] Hdepth; [lia | lia | reflexivity].
  - intros Hfirst. specialize (Hfirst [] "A" ["B"] "B" eq_refl Hdep).
    by apply elem_of_nil in Hfirst.
Qed.

(** C4, as the code has it. A cycle in the dependency relation makes
    every run fail, so that nothing is returned; when the interpreter
    allows more nested calls than the graph has distinct ids, the failure
    is the [ValueError] with the fixed message "Circular dependency
    detected".  A depending on B and B on A does so from three nested
    calls on. *)
Theorem cycle_raises_ValueError :
  (∀ depth tasks,
     has_cycle (_build_dependency_graph tasks) →
     (∃ e, optimize_task_sequence depth tasks = Raise e)
     ∧ (deep_enough depth (_build_dependency_graph tasks) →
        optimize_task_sequence depth tasks
        = Raise (ValueError "Circular dependency detected")))
  ∧ (∀ depth, (3 ≤ depth)%nat →
       optimize_task_sequence depth cyclic_pair
       = Raise (ValueError "Circular dependency detected")).
Proof.
  split.
  - intros depth tasks Hcycle. unfold optimize_task_sequence. split.
    + destruct (topological_sort_cyclic depth _ Hcycle) as [->|[-> _]]; by eexists.
    + intros Hdeep.
      destruct (topological_sort_cases depth _ Hdeep) as [[_ Hrun]|[Hacyclic _]]; done.
  - intros [|[|[|depth]]] Hdepth; [lia | lia | lia | reflexivity].
Qed.

Lemma cyclic_pair_has_cycle : has_cycle (_build_dependency_graph cyclic_pair).
Proof.
  exists "A". apply tc_l with "B"; [|apply tc_once]; apply list_elem_of_here.
Defined.

Lemma cycle_raises_ValueError_witness :
  has_cycle (_build_dependency_graph cyclic_pair)
  ∧ deep_enough 1000 (_build_dependency_graph cyclic_pair)
  ∧ optimize_task_sequence 1000 cyclic_pair
    = Raise (ValueError "Circular dependency detected").
Proof.
  assert (deep_enough 1000 (_build_dependency_graph cyclic_pair)) as Hdeep
    by (unfold deep_enough; vm_compute; lia).
  split_and!; [apply cyclic_pair_has_cycle | exact Hdeep |].
  apply (proj1 cycle_raises_ValueError 1000%nat cyclic_pair cyclic_pair_has_cycle), Hdeep.
Defined.

(** C4, as stated, fails twice over.  The error raised for the cycle
    between A and B names neither of them, nor any other id on a cycle.
    And a chain of 1001 tasks whose last task depends on itself has a
    cycle, yet the run ends in [RecursionError] when the interpreter
    allows at most 1000 nested calls: the walk gives out before it
    reaches the cycle. *)
Lemma cycle_error_names_no_task :
  (∃ e, optimize_task_sequence 1000 cyclic_pair = Raise e
      ∧ ∀ t, tc (depends_on (_build_dependency_graph cyclic_pair)) t t → ¬ names e t)
  ∧ (has_cycle (_build_dependency_graph (chain 1000 [pretty 1000%nat]))
     ∧ ∀ depth, (depth ≤ 1000)%nat →
         optimize_task_sequence depth (chain 1000 [pretty 1000%nat])
         = Raise (RecursionError recursion_message)).
Proof.
  split.
  - exists (ValueError circular_message). split; [reflexivity|].
    intros t Ht.
    assert (t ∈ keys (_build_dependency_graph cyclic_pair)) as Hkey
      by (inversion Ht; by eapply depends_on_key).
    apply elem_of_cons in Hkey as [->|Hkey]; [by vm_compute|].
    apply list_elem_of_singleton in Hkey as ->. by vm_compute.
  - split; [apply chain_loop_has_cycle|].
    intros depth Hdepth. by apply chain_RecursionError.
Qed.

(** C6, as the code has it. A dependency id that names no task is not
    reported: the walk takes it for a task without dependencies.  When
    the interpreter allows more nested calls than the graph has distinct
    ids, the run either raises the circular-dependency error, because of
    some cycle, or returns a sequence that lists the unknown id. *)
Theorem unknown_dependency_listed depth tasks t d :
  depends_on (_build_dependency_graph tasks) t d →
  d ∉ keys (_build_dependency_graph tasks) →
  deep_enough depth (_build_dependency_graph tasks) →
  get_default (_build_dependency_graph tasks) d [] = []
  ∧ ((has_cycle (_build_dependency_graph tasks)
      ∧ optimize_task_sequence depth tasks = Raise (ValueError circular_message))
     ∨ (¬ has_cycle (_build_dependency_graph tasks)
        ∧ ∃ l, optimize_task_sequence depth tasks = Done l ∧ NoDup l ∧ t ∈ l ∧ d ∈ l)).
Proof.
  intros Hdep Hd Hdeep. split.
  - unfold get_default. destruct (get _ d) as [v|] eqn:Hget; [|done].
    exfalso. apply Hd, get_is_Some. eauto.
  - destruct (topological_sort_cases depth (_build_dependency_graph tasks) Hdeep)
      as [?|[Hacyclic (l & Hrun & Hnd & Hfirst & Hkeys & Hdeps)]]; [by left|].
    right. split; [done|]. exists l. split_and!; [done | done | | by eapply Hdeps].
    eapply Hkeys, depends_on_key, Hdep.
Qed.

Lemma unknown_dependency_listed_witness :
  get_default (_build_dependency_graph dangling) "ghost" [] = []
  ∧ ((has_cycle (_build_dependency_graph dangling)
      ∧ optimize_task_sequence 1000 dangling = Raise (ValueError circular_message))
     ∨ (¬ has_cycle (_build_dependency_graph dangling)
        ∧ ∃ l, optimize_task_sequence 1000 dangling = Done l
             ∧ NoDup l ∧ "A" ∈ l ∧ "ghost" ∈ l)).
Proof.
  apply (unknown_dependency_listed 1000 dangling "A" "ghost").
  - apply list_elem_of_here.
  - intros Hin. apply list_elem_of_singleton in Hin. discriminate Hin.
  - unfold deep_enough. vm_compute. lia.
Defined.

(** C6, as stated, fails: with a dependency on an id that names no task
    the run raises nothing and returns the unknown id in the sequence,
    from two nested calls on. *)
Lemma unknown_dependency_unreported :
  depends_on (_build_dependency_graph dangling) "A" "ghost"
  ∧ ("ghost" ∉ keys (_build_dependency_graph dangling))
  ∧ ∀ depth, (2 ≤ depth)%nat → optimize_task_sequence depth dangling = Done ["A"; "ghost"].
Proof.
  split_and!; [apply list_elem_of_here | |].
  - intros Hin. apply list_elem_of_singleton in Hin. discriminate Hin.
  - intros [|[|depth]] Hdepth; [lia | lia | reflexivity].
Qed.

(** * Further properties of the modelled code *)

(** ** The store: [add_task], [assign_task], [update_task_status] *)

Section store_methods.
Implicit Types (σ : state) (r task : ref) (task_id agent_id : string).

Lemma get_Some_items {V} (d : dict V) key (v : V) : get d key = Some v → (key, v) ∈ items d.
Proof.
  unfold items. induction d as [|[k' v'] d IH]; simpl; [done|].
  destruct (decide (k' = key)) as [->|Hne].
  - intros [= ->]. apply elem_of_cons. by left.
  - intros Hget. apply elem_of_cons. right. by apply IH.
Qed.

Lemma elem_of_values {V} (d : dict V) (v : V) :
  v ∈ values d ↔ ∃ key, (key, v) ∈ items d.
Proof.
  unfold values, items. rewrite list_elem_of_fmap. split.
  - intros ([key v'] & -> & Hin). by exists key.
  - intros [key Hin]. by exists (key, v).
Qed.

Lemma consistent_NoDup_values σ : consistent σ → NoDup (values (tasks (self σ))).
Proof.
  intros [Hkeys Hid]. unfold values.
  apply NoDup_fmap_2_strong; [|by eapply NoDup_fmap_1].
  intros [k1 r1] [k2 r2] H1 H2 Heq. simpl in Heq. subst r2.
  apply (get_items _ _ _ Hkeys) in H1. apply (get_items _ _ _ Hkeys) in H2.
  apply Hid in H1. apply Hid in H2. congruence.
Qed.

Lemma run_call_consistent σ c : consistent σ → consistent (run_call σ c).
Proof.
  intros [Hkeys Hid]. destruct c as [task|task_id agent_id|task_id new_status|]; simpl.
  - unfold add_task. destruct (contains _ _) eqn:Hc; simpl; [done|].
    split; simpl; [by apply NoDup_keys_set|].
    intros k r. destruct (decide (id (objects σ task) = k)) as [<-|Hne].
    + rewrite get_set_eq. by intros [= <-].
    + rewrite get_set_ne by done. apply Hid.
  - unfold assign_task. destruct (get _ task_id) as [r0|] eqn:Hget; [|done].
    destruct (bool_decide _); [|done]. split; simpl; [done|].
    intros k r Hr. unfold write. destruct (decide (r = r0)) as [->|]; simpl; by apply Hid.
  - unfold update_task_status. destruct (get _ task_id) as [r0|] eqn:Hget; [|done].
    split; simpl; [done|].
    intros k r Hr. unfold write. destruct (decide (r = r0)) as [->|]; simpl; by apply Hid.
  - done.
Qed.

Lemma run_calls_consistent_inv cs : ∀ σ, consistent σ → consistent (run_calls σ cs).
Proof.
  induction cs as [|c cs IH]; intros σ Hσ; simpl; [done|].
  by apply IH, run_call_consistent.
Qed.

Lemma run_call_schedule σ c :
  c ≠ OptimizeSchedule →
  current_schedule (self (run_call σ c)) = current_schedule (self σ).
Proof.
  intros Hc. destruct c as [task|task_id agent_id|task_id new_status|]; simpl; [| | |done].
  - unfold add_task. by destruct (contains _ _).
  - unfold assign_task. destruct (get _ task_id); [|done]. by destruct (bool_decide _).
  - unfold update_task_status. by destruct (get _ task_id).
Qed.

(** X1. [add_task] of a task whose id is not in the table returns
    [True], puts the id last in the table's key order, makes the id look
    up to that task and leaves every other lookup, the objects, the roster
    and the stored schedule as they were. *)
Theorem add_task_stores σ task :
  id (objects σ task) ∉ keys (tasks (self σ)) →
  (add_task task σ).1 = true
  ∧ keys (tasks (self (add_task task σ).2))
    = keys (tasks (self σ)) ++ [id (objects σ task)]
  ∧ get (tasks (self (add_task task σ).2)) (id (objects σ task)) = Some task
  ∧ (∀ k, k ≠ id (objects σ task) →
       get (tasks (self (add_task task σ).2)) k = get (tasks (self σ)) k)
  ∧ objects (add_task task σ).2 = objects σ
  ∧ agents (self (add_task task σ).2) = agents (self σ)
  ∧ current_schedule (self (add_task task σ).2) = current_schedule (self σ).
Proof.
  intros Hfresh. unfold add_task.
  destruct (contains _ _) eqn:Hc; [by apply contains_keys in Hc|]. simpl.
  split_and!; try done.
  - by rewrite keys_set, decide_False.
  - apply get_set_eq.
  - intros k Hk. by apply get_set_ne.
Qed.

Lemma add_task_stores_witness :
  (add_task 1%nat (add_task 0%nat (sample_state [])).2).1 = true
  ∧ keys (tasks (self (add_task 1%nat (add_task 0%nat (sample_state [])).2).2))
    = ["task_1"; "task_2"].
Proof.
  destruct (add_task_stores (add_task 0%nat (sample_state [])).2 1%nat)
    as (Hok & Hkeys & _).
  - intros Hin. apply list_elem_of_singleton in Hin. discriminate Hin.
  - split; [exact Hok | exact Hkeys].
Defined.

(** X2. [assign_task] returns [True] exactly when the task id is in the
    table and the agent is in the roster; when it returns [False] nothing
    has changed. *)
Theorem assign_task_accepts σ task_id agent_id :
  ((assign_task task_id agent_id σ).1 = true
   ↔ task_id ∈ keys (tasks (self σ)) ∧ agent_id ∈ agents (self σ))
  ∧ ((assign_task task_id agent_id σ).1 = false →
     (assign_task task_id agent_id σ).2 = σ).
Proof.
  unfold assign_task. rewrite <-get_is_Some.
  destruct (get _ task_id) as [r|] eqn:Hget.
  - destruct (bool_decide _) eqn:Hagent; simpl.
    + apply bool_decide_eq_true in Hagent. split; [|done]. split; eauto.
    + apply bool_decide_eq_false in Hagent. split; [|done].
      split; [done | by intros [_ ?]].
  - simpl. split; [|done]. split; [done | by intros [[] _]].
Qed.

(** X3. [update_task_status] on an id that is not in the table returns
    [False] and changes nothing; on a stored id it returns [True] and
    writes the status of the one object stored under the id: the
    assignment and every other attribute of that object, every other
    object and the store itself stay as they were.  Any string is taken
    as a status. *)
Theorem update_task_status_frame σ task_id new_status :
  (task_id ∉ keys (tasks (self σ)) →
   update_task_status task_id new_status σ = (false, σ))
  ∧ (task_id ∈ keys (tasks (self σ)) →
     ∃ r, get (tasks (self σ)) task_id = Some r
       ∧ (update_task_status task_id new_status σ).1 = true
       ∧ self (update_task_status task_id new_status σ).2 = self σ
       ∧ objects (update_task_status task_id new_status σ).2 r
         = with_status (objects σ r) new_status
       ∧ status (objects (update_task_status task_id new_status σ).2 r) = new_status
       ∧ assigned_to (objects (update_task_status task_id new_status σ).2 r)
         = assigned_to (objects σ r)
       ∧ id (objects (update_task_status task_id new_status σ).2 r) = id (objects σ r)
       ∧ priority (objects (update_task_status task_id new_status σ).2 r)
         = priority (objects σ r)
       ∧ due_date (objects (update_task_status task_id new_status σ).2 r)
         = due_date (objects σ r)
       ∧ dependencies (objects (update_task_status task_id new_status σ).2 r)
         = dependencies (objects σ r)
       ∧ (∀ r', r' ≠ r →
            objects (update_task_status task_id new_status σ).2 r' = objects σ r')).
Proof.
  rewrite <-get_is_Some. unfold update_task_status.
  destruct (get _ task_id) as [r|] eqn:Hget; simpl.
  - split; [intros Hno; exfalso; apply Hno; eauto|].
    intros _. exists r. unfold write. rewrite decide_True by done.
    split_and!; try done. intros r' Hne. by rewrite decide_False.
  - split; [done | by intros []].
Qed.

(** X4. Every run of the store's methods from a consistent state (in
    particular from the empty table) ends in a consistent state: the keys
    of the table are distinct, each key is the id of the task stored under
    it, and no task object is stored under two keys. *)
Theorem run_calls_consistent σ cs :
  consistent σ →
  consistent (run_calls σ cs) ∧ NoDup (values (tasks (self (run_calls σ cs)))).
Proof.
  intros Hσ. pose proof (run_calls_consistent_inv cs σ Hσ) as Hrun.
  split; [done | by apply consistent_NoDup_values].
Qed.

Lemma sample_state_consistent roster : consistent (sample_state roster).
Proof. split; simpl; [constructor | done]. Defined.

Lemma run_calls_consistent_witness :
  consistent (run_calls (sample_state ["agent_1"])
                [AddTask 0%nat; AddTask 2%nat; AddTask 1%nat;
                 AssignTask "task_2" "agent_1"; OptimizeSchedule])
  ∧ NoDup (values (tasks (self
       (run_calls (sample_state ["agent_1"])
          [AddTask 0%nat; AddTask 2%nat; AddTask 1%nat;
           AssignTask "task_2" "agent_1"; OptimizeSchedule])))).
Proof.
  apply (run_calls_consistent (sample_state ["agent_1"])
           [AddTask 0%nat; AddTask 2%nat; AddTask 1%nat;
            AssignTask "task_2" "agent_1"; OptimizeSchedule]).
  apply sample_state_consistent.
Defined.

(** X5. In a consistent state the lists [optimize_schedule] builds
    partition the stored tasks that are assigned to registered agents:
    each list has no repetition and holds only stored tasks assigned to
    its agent, and every stored task assigned to a registered agent is in
    the list of that agent. *)
Theorem optimize_schedule_partition σ :
  consistent σ →
  (∀ agent lst, get (optimize_schedule σ).1 agent = Some lst →
     NoDup lst
     ∧ ∀ r, r ∈ lst →
         r ∈ values (tasks (self σ)) ∧ assigned_to (objects σ r) = agent)
  ∧ (∀ r, r ∈ values (tasks (self σ)) →
       assigned_to (objects σ r) ∈ agents (self σ) →
       ∃ lst, get (optimize_schedule σ).1 (assigned_to (objects σ r)) = Some lst
            ∧ r ∈ lst).
Proof.
  intros Hσ. pose proof (consistent_NoDup_values σ Hσ) as Hnd. split.
  - intros agent lst. rewrite optimize_schedule_fill, get_fill.
    destruct (decide _); [|done]. intros [= <-]. split.
    + rewrite agent_tasks_Permutation. by apply NoDup_filter.
    + intros r [Hagent Hr]%elem_of_agent_tasks. done.
  - intros r Hr Hagent. eexists.
    rewrite optimize_schedule_fill, get_fill, decide_True by done.
    split; [done|]. by apply elem_of_agent_tasks.
Qed.

Lemma optimize_schedule_partition_witness :
  get (optimize_schedule
         (run_calls (sample_state ["agent_1"]) [AddTask 0%nat; AddTask 1%nat])).1
    "agent_1" = Some [1%nat; 0%nat]
  ∧ NoDup [1%nat; 0%nat].
Proof.
  split; [reflexivity|].
  destruct (optimize_schedule_partition
              (run_calls (sample_state ["agent_1"]) [AddTask 0%nat; AddTask 1%nat]))
    as [Hlists _].
  - apply run_calls_consistent_inv, sample_state_consistent.
  - apply (Hlists "agent_1" [1%nat; 0%nat]). reflexivity.
Defined.

(** X6. The stored schedule is a snapshot: no run of [add_task],
    [assign_task] and [update_task_status] changes what
    [get_agent_schedule] returns, so a task reassigned after
    [optimize_schedule] stays in the list of its former agent until
    [optimize_schedule] runs again. *)
Theorem schedule_is_snapshot σ cs agent_id :
  OptimizeSchedule ∉ cs →
  get_agent_schedule agent_id (run_calls σ cs) = get_agent_schedule agent_id σ.
Proof.
  revert σ. induction cs as [|c cs IH]; intros σ Hcs; simpl; [done|].
  rewrite IH by (intros Hin; apply Hcs, elem_of_cons; by right).
  unfold get_agent_schedule. rewrite run_call_schedule; [done|].
  intros ->. apply Hcs, elem_of_cons. by left.
Qed.

Lemma schedule_is_snapshot_witness :
  get_agent_schedule "agent_1"
    (run_calls
       (run_calls (sample_state ["agent_1"; "agent_2"])
          [AddTask 0%nat; OptimizeSchedule])
       [AssignTask "task_1" "agent_2"])
  = [0%nat]
  ∧ assigned_to
      (objects
         (run_calls
            (run_calls (sample_state ["agent_1"; "agent_2"])
               [AddTask 0%nat; OptimizeSchedule])
            [AssignTask "task_1" "agent_2"]) 0%nat)
    = "agent_2".
Proof.
  split; [|reflexivity].
  rewrite (schedule_is_snapshot
             (run_calls (sample_state ["agent_1"; "agent_2"])
                [AddTask 0%nat; OptimizeSchedule])
             [AssignTask "task_1" "agent_2"] "agent_1").
  - reflexivity.
  - intros Hin. apply list_elem_of_singleton in Hin. discriminate Hin.
Defined.
End store_methods.

(** ** The dependency graph and its order *)

Section graph_order.
Implicit Types (graph : dict (list string)) (tasks : list Task) (t d x : string).

Lemma build_keys {V} (f : string → V) tasks : ∀ graph (d : dict V),
  keys graph = keys d →
  keys (foldl (λ g task, Py.set g (id task) (dependencies task)) graph tasks)
  = keys (fill f d (id <$> tasks)).
Proof.
  induction tasks as [|task tasks IH]; intros graph d Hkeys; [done|].
  cbn [foldl fmap list_fmap fill]. apply IH. by rewrite !keys_set, Hkeys.
Qed.

Lemma for_each_mentioned graph body :
  appends_mentioned graph body →
  ∀ l st st', for_each body l st = Done st' →
    (∀ t, t ∈ l → mentioned graph t) →
    (∀ x, x ∈ order st → mentioned graph x) →
    ∀ x, x ∈ order st' → mentioned graph x.
Proof.
  intros Hbody l. induction l as [|t l IH]; intros st st' Hrun Hl Hst; simpl in Hrun.
  - by injection Hrun as <-.
  - apply bind_Done in Hrun as (st1 & H1 & H2).
    eapply IH; [done | |].
    + intros y Hy. apply Hl, elem_of_cons. by right.
    + eapply Hbody; [done | | done]. apply Hl, elem_of_cons. by left.
Qed.

Lemma visit_mentioned graph depth : appends_mentioned graph (visit depth graph).
Proof.
  induction depth as [|depth IH]; intros t st st' Hrun Ht Hst; simpl in Hrun; [done|].
  destruct (decide (t ∈ temp st)); [done|].
  destruct (decide (t ∈ visited st)); [by injection Hrun as <-|].
  apply bind_Done in Hrun as (st1 & H1 & [= <-]). simpl.
  intros x [Hx| ->%list_elem_of_singleton]%elem_of_app; [|done].
  eapply (for_each_mentioned graph _ IH); [done | | done | done].
  intros y Hy. right. by exists t.
Qed.

Lemma topological_sort_mentioned depth graph l x :
  _topological_sort depth graph = Done l → x ∈ l → mentioned graph x.
Proof.
  rewrite topological_sort_unfold.
  intros (st & Hrun & [= <-])%bind_Done Hx. rewrite elem_of_reverse in Hx.
  assert (appends_mentioned graph (visit_root depth graph)) as Hbody.
  { intros t st0 st' Hr Ht Hst. unfold visit_root in Hr.
    destruct (decide _); [by injection Hr as <- | by eapply visit_mentioned]. }
  apply (for_each_mentioned graph _ Hbody (keys graph) initial st Hrun); [| | done].
  - intros t Ht. by left.
  - by intros y ?%elem_of_nil.
Qed.

(** X7. The graph [_build_dependency_graph] builds maps each task id to
    the dependency list of the last task of the input that carries the
    id, has no other key, and lists its keys in the order in which the ids
    first occur in the input. *)
Theorem build_dependency_graph_lookup tasks :
  (∀ key,
     get (_build_dependency_graph tasks) key
     = dependencies <$> last (filter (λ task, id task = key) tasks))
  ∧ keys (_build_dependency_graph tasks) = first_occurrences (id <$> tasks).
Proof.
  split.
  - intros key. unfold _build_dependency_graph. rewrite build_get.
    by destruct (last _).
  - unfold _build_dependency_graph.
    rewrite (build_keys (λ _, ()) tasks [] []) by done.
    rewrite keys_fill_first_occurrences. simpl.
    apply filter_all, Forall_forall. intros y _. apply not_elem_of_nil.
Qed.

(** X8. On a task set without a dependency cycle, when the interpreter
    allows more nested calls than the graph has distinct ids, the run
    returns a sequence that holds exactly the ids the graph mentions (task
    ids and declared dependencies, known or not), each once, every task
    ahead of the tasks it depends on. *)
Theorem optimize_task_sequence_lists_mentioned depth tasks :
  ¬ has_cycle (_build_dependency_graph tasks) →
  deep_enough depth (_build_dependency_graph tasks) →
  ∃ l, optimize_task_sequence depth tasks = Done l
     ∧ NoDup l
     ∧ (∀ x, x ∈ l ↔ mentioned (_build_dependency_graph tasks) x)
     ∧ dependents_first (_build_dependency_graph tasks) l.
Proof.
  intros Hacyclic Hdeep.
  destruct (topological_sort_cases depth (_build_dependency_graph tasks) Hdeep)
    as [[Hcycle _]|[_ (l & Hrun & Hnd & Hfirst & Hkeys & Hdeps)]]; [done|].
  exists l. split_and!; [done | done | | done].
  intros x. split.
  - by apply (topological_sort_mentioned depth).
  - intros [Hx|[t Hx]]; [by apply Hkeys | by eapply Hdeps].
Qed.

Lemma chain_pair_acyclic : ¬ has_cycle (_build_dependency_graph chain_pair).
Proof.
  assert (_topological_sort 2 (_build_dependency_graph chain_pair) = Done ["A"; "B"])
    as Hrun by reflexivity.
  by apply topological_sort_Done in Hrun as [Hacyclic _].
Defined.

Lemma optimize_task_sequence_lists_mentioned_witness :
  ∃ l, optimize_task_sequence 1000 chain_pair = Done l
     ∧ NoDup l
     ∧ (∀ x, x ∈ l ↔ mentioned (_build_dependency_graph chain_pair) x)
     ∧ dependents_first (_build_dependency_graph chain_pair) l.
Proof.
  apply (optimize_task_sequence_lists_mentioned 1000 chain_pair chain_pair_acyclic).
  unfold deep_enough. vm_compute. lia.
Defined.

(** X9. The run fails in two ways only.  It raises the
    circular-dependency [ValueError] only when the dependency relation has
    a cycle, and [RecursionError] only when the interpreter allows no more
    nested calls than the graph has distinct ids; a run that returns was
    made on a graph without a cycle.  When the interpreter allows more
    nested calls than that, the run raises exactly when there is a cycle,
    in particular when a task lists itself as a dependency.  A chain of
    tasks without any cycle, each depending on the next, makes the run end
    in [RecursionError] once it has more links than the interpreter allows
    nested calls. *)
Theorem optimize_task_sequence_raises_iff depth tasks :
  (∀ l, optimize_task_sequence depth tasks = Done l →
     ¬ has_cycle (_build_dependency_graph tasks))
  ∧ (∀ e, optimize_task_sequence depth tasks = Raise e →
       (e = ValueError circular_message ∧ has_cycle (_build_dependency_graph tasks))
       ∨ (e = RecursionError recursion_message
          ∧ ¬ deep_enough depth (_build_dependency_graph tasks)))
  ∧ (deep_enough depth (_build_dependency_graph tasks) →
     ((∃ e, optimize_task_sequence depth tasks = Raise e)
      ↔ has_cycle (_build_dependency_graph tasks))
     ∧ ∀ t, depends_on (_build_dependency_graph tasks) t t →
         optimize_task_sequence depth tasks = Raise (ValueError circular_message))
  ∧ (∀ n, (depth ≤ n)%nat →
       ¬ has_cycle (_build_dependency_graph (chain n []))
       ∧ optimize_task_sequence depth (chain n [])
         = Raise (RecursionError recursion_message)).
Proof.
  unfold optimize_task_sequence. split_and!.
  - intros l Hrun. by apply topological_sort_Done in Hrun as [Hacyclic _].
  - intros [msg|msg] Hrun.
    + left. by apply topological_sort_ValueError in Hrun as [? ->].
    + right. by apply topological_sort_RecursionError in Hrun as [-> ?].
  - intros Hdeep.
    destruct (topological_sort_cases depth (_build_dependency_graph tasks) Hdeep)
      as [[Hcycle Hrun]|[Hacyclic (l & Hrun & _)]]; rewrite Hrun.
    + split; [split; eauto | done].
    + split; [split; [by intros [e ?] | done]|].
      intros t Ht. exfalso. apply Hacyclic. exists t. by apply tc_once.
  - intros n Hn. split; [apply chain_acyclic | by apply chain_RecursionError].
Qed.
End graph_order.

(** ** [analyze_workload] *)

Section analysis.
Implicit Types (tasks : list Task) (d : dict Z) (p : Z).

Lemma count_priority_get tasks p : ∀ d,
  get (foldl count_priority d tasks) (pretty p)
  = if decide (with_priority p tasks = 0%nat) then get d (pretty p)
    else Some (get_default d (pretty p) 0 + Z.of_nat (with_priority p tasks)).
Proof.
  unfold with_priority.
  induction tasks as [|task tasks IH]; intros d; [done|].
  cbn [foldl]. rewrite IH, filter_cons. unfold count_priority, get_default.
  destruct (decide (priority task = p)) as [<-|Hne].
  - rewrite get_set_eq. simpl length.
    rewrite (decide_False (P := S _ = 0%nat)) by done.
    destruct (decide _) as [->|]; f_equal; simpl; lia.
  - rewrite get_set_ne; [done|]. intros Heq. by apply (inj pretty) in Heq.
Qed.

Lemma count_priority_keys tasks key : ∀ d,
  key ∈ keys (foldl count_priority d tasks) →
  key ∈ keys d ∨ ∃ task, task ∈ tasks ∧ key = pretty (priority task).
Proof.
  induction tasks as [|task tasks IH]; intros d; [by left|].
  cbn [foldl]. intros [Hin|(t & Ht & ->)]%IH.
  - unfold count_priority in Hin. apply elem_of_keys_set in Hin as [->|Hin]; [|by left].
    right. exists task. split; [apply elem_of_cons; by left | done].
  - right. exists t. split; [apply elem_of_cons; by right | done].
Qed.

Lemma sum_values_set_succ d key :
  Py.sum (values (Py.set d key (get_default d key 0 + 1))) = Py.sum (values d) + 1.
Proof.
  unfold Py.sum, values, get_default.
  induction d as [|[k v] d IH]; [done|]. cbn [Py.set get].
  destruct (decide (k = key)) as [->|Hne]; csimpl; [lia|].
  rewrite IH. lia.
Qed.

Lemma count_priority_sum tasks : ∀ d,
  Py.sum (values (foldl count_priority d tasks))
  = Py.sum (values d) + Z.of_nat (length tasks).
Proof.
  induction tasks as [|task tasks IH]; intros d; [simpl; lia|].
  cbn [foldl]. rewrite IH. unfold count_priority. rewrite sum_values_set_succ.
  simpl length. lia.
Qed.

(** X10. [analyze_workload] counts: [total_tasks] is the length of the
    task list; the distribution has an entry for [str(p)] exactly when
    some task has priority [p], holding the number of such tasks; every
    key is the numeral of a priority that occurs; the counts add up to
    [total_tasks]; and the two lists of days and recommendations are
    always empty. *)
Theorem analyze_workload_counts tasks :
  total_tasks (analyze_workload tasks) = Z.of_nat (length tasks)
  ∧ (∀ p, get (priority_distribution (analyze_workload tasks)) (pretty p)
          = if decide (with_priority p tasks = 0%nat) then None
            else Some (Z.of_nat (with_priority p tasks)))
  ∧ (∀ key, key ∈ keys (priority_distribution (analyze_workload tasks)) →
       ∃ task, task ∈ tasks ∧ key = pretty (priority task))
  ∧ Py.sum (values (priority_distribution (analyze_workload tasks)))
    = total_tasks (analyze_workload tasks)
  ∧ overloaded_days (analyze_workload tasks) = []
  ∧ recommendations (analyze_workload tasks) = [].
Proof.
  split_and!; [done | | | | done | done].
  - intros p. simpl. rewrite count_priority_get. by destruct (decide _).
  - intros key Hkey. simpl in Hkey.
    apply count_priority_keys in Hkey as [Hin|?]; [|done].
    by apply elem_of_nil in Hin.
  - simpl. by rewrite count_priority_sum.
Qed.
End analysis.

(** ** More on the redistribution *)

Section redistribution_more.
Implicit Types (w : dict (list Task)) (task : Task) (agent : string).

Lemma place_Done_set task w :
  NoDup (keys w) → keys w ≠ [] →
  ∃ agent, agent ∈ keys w
    ∧ place task w = Done (Py.set w agent (get_default w agent [] ++ [task])).
Proof.
  intros Hw Hne.
  destruct (min_by_first_min (λ x : string * list Task, load x.2) (items w))
    as (j & m & Hmin & Hj & _).
  { intros Heq. apply Hne. unfold keys, items in *. by rewrite Heq. }
  exists m.1. split.
  - apply list_elem_of_lookup_2 in Hj. unfold keys, items in *.
    by apply list_elem_of_fmap_2.
  - unfold place. by rewrite Hmin.
Qed.

Lemma concat_values_set_snoc w agent task :
  agent ∈ keys w →
  concat (values (Py.set w agent (get_default w agent [] ++ [task])))
  ≡ₚ task :: concat (values w).
Proof.
  unfold values, keys, get_default.
  induction w as [|[k v] w IH]; [by intros ?%elem_of_nil|].
  cbn [Py.set get]. destruct (decide (k = agent)) as [->|Hne]; csimpl.
  - intros _. rewrite <-app_assoc. simpl.
    by rewrite <-Permutation_middle.
  - intros [?|Hin]%elem_of_cons; [done|].
    rewrite IH by done. simpl. by rewrite Permutation_middle.
Qed.

Lemma for_each_place_concat queue : ∀ w,
  NoDup (keys w) → keys w ≠ [] →
  ∃ w', for_each place queue w = Done w' ∧ keys w' = keys w
      ∧ concat (values w') ≡ₚ concat (values w) ++ queue.
Proof.
  induction queue as [|task queue IH]; intros w Hw Hne; simpl.
  - exists w. by rewrite app_nil_r.
  - destruct (place_Done_set task w Hw Hne) as (agent & Hagent & ->). simpl.
    assert (keys (Py.set w agent (get_default w agent [] ++ [task])) = keys w) as Hkeys
      by by rewrite keys_set, decide_True.
    destruct (IH (Py.set w agent (get_default w agent [] ++ [task])))
      as (w' & Hrun & Hkeys' & Hperm); [by rewrite Hkeys..|].
    exists w'. split_and!; [done | by rewrite Hkeys', Hkeys |].
    rewrite Hperm, concat_values_set_snoc by done.
    by rewrite <-Permutation_middle.
Qed.

Lemma concat_values_empty_workload agents :
  concat (values (empty_workload agents)) = [].
Proof.
  assert (∀ v, v ∈ values (empty_workload agents) → v = []) as Hall.
  { intros v (key & Hin)%elem_of_values.
    apply get_items in Hin; [|apply NoDup_empty_workload].
    pose proof (get_empty_workload agents key) as Hget.
    unfold get_default in Hget. by rewrite Hin in Hget. }
  induction (values (empty_workload agents)) as [|v vs IH]; [done|].
  simpl. rewrite (Hall v) by (apply elem_of_cons; by left).
  apply IH. intros v' Hv'. apply Hall, elem_of_cons. by right.
Qed.

Lemma keys_empty_workload_nonempty agents :
  agents ≠ [] → keys (empty_workload agents) ≠ [].
Proof. rewrite keys_empty_workload. by destruct agents. Qed.

(** X11. With a non-empty roster the redistribution places every task
    exactly once: the lists of the result, put together, are a
    permutation of the task list, and the keys of the result are the
    roster. *)
Theorem suggest_task_redistribution_conserves tasks agents :
  agents ≠ [] →
  ∃ result, suggest_task_redistribution tasks agents = Done result
    ∧ keys result = first_occurrences agents
    ∧ concat (values result) ≡ₚ tasks.
Proof.
  intros Hne.
  destruct (for_each_place_concat (sorted_tasks tasks) (empty_workload agents))
    as (result & Hrun & Hkeys & Hperm);
    [apply NoDup_empty_workload | by apply keys_empty_workload_nonempty |].
  exists result. split_and!; [done | by rewrite Hkeys, keys_empty_workload |].
  rewrite Hperm, concat_values_empty_workload. simpl.
  apply (sort_by_reverse_Permutation Z.ltb priority).
Qed.

Lemma suggest_task_redistribution_conserves_witness :
  ∃ result,
    suggest_task_redistribution [weight_3; weight_5; weight_3'] ["A"; "B"] = Done result
    ∧ keys result = first_occurrences ["A"; "B"]
    ∧ concat (values result) ≡ₚ [weight_3; weight_5; weight_3'].
Proof.
  apply (suggest_task_redistribution_conserves [weight_3; weight_5; weight_3'] ["A"; "B"]).
  done.
Defined.

Lemma for_each_place_balanced bound queue : ∀ w,
  NoDup (keys w) → keys w ≠ [] →
  (∀ task, task ∈ queue → 0 ≤ priority task ≤ bound) →
  balanced bound (keys w) w →
  ∃ w', for_each place queue w = Done w' ∧ keys w' = keys w
      ∧ balanced bound (keys w) w'.
Proof.
  induction queue as [|task queue IH]; intros w Hw Hne Hq Hbal; simpl.
  - by exists w.
  - destruct (place_greedy task w Hw Hne)
      as (w1 & -> & j & agent & (Hj & Hmin & _) & _ & Htotal & Hother & Hkeys).
    simpl.
    assert (0 ≤ priority task ≤ bound) as Hp by (apply Hq, elem_of_cons; by left).
    assert (∀ other, other ≠ agent → total w1 other = total w other) as Hsame.
    { intros other Hne'. unfold total, get_default. by rewrite Hother. }
    assert (agent ∈ keys w) as Hagent by by eapply list_elem_of_lookup_2.
    destruct (IH w1) as (w' & Hrun & Hkeys' & Hbal'); [by rewrite Hkeys.. | | |].
    + intros t Ht. apply Hq, elem_of_cons. by right.
    + rewrite Hkeys. intros a b Ha Hb.
      destruct (decide (a = agent)) as [->|Ha'], (decide (b = agent)) as [->|Hb'];
        rewrite ?Htotal, ?(Hsame a), ?(Hsame b) by done.
      * lia.
      * specialize (Hmin b Hb). lia.
      * specialize (Hbal a agent Ha Hagent). lia.
      * by apply Hbal.
    + exists w'. rewrite Hkeys in Hkeys', Hbal'. by split_and!.
Qed.

(** X12. When every weight lies between 0 and a bound, the greedy
    redistribution over a non-empty roster ends balanced up to that
    bound: no agent's cumulative weight exceeds another's by more than the
    bound. *)
Theorem suggest_task_redistribution_balanced tasks agents bound :
  agents ≠ [] →
  0 ≤ bound →
  (∀ task, task ∈ tasks → 0 ≤ priority task ≤ bound) →
  ∃ result, suggest_task_redistribution tasks agents = Done result
    ∧ balanced bound (first_occurrences agents) result.
Proof.
  intros Hne Hbound Htasks.
  destruct (for_each_place_balanced bound (sorted_tasks tasks) (empty_workload agents))
    as (result & Hrun & _ & Hbal).
  - apply NoDup_empty_workload.
  - by apply keys_empty_workload_nonempty.
  - intros task Htask. apply Htasks.
    by rewrite <-(sort_by_reverse_Permutation Z.ltb priority tasks).
  - intros a b _ _. unfold total. rewrite !get_empty_workload. simpl. unfold load.
    simpl. lia.
  - exists result. split; [done|]. by rewrite <-keys_empty_workload.
Qed.

Lemma suggest_task_redistribution_balanced_witness :
  ∃ result,
    suggest_task_redistribution [weight_3; weight_5; weight_3'] ["A"; "B"] = Done result
    ∧ balanced 5 (first_occurrences ["A"; "B"]) result.
Proof.
  apply (suggest_task_redistribution_balanced [weight_3; weight_5; weight_3'] ["A"; "B"] 5).
  - done.
  - done.
  - intros task Htask. repeat (apply elem_of_cons in Htask as [->|Htask]); [done..|].
    by apply elem_of_nil in Htask.
Defined.

Lemma suggest_task_redistribution_no_agents tasks :
  tasks ≠ [] → ∃ e, suggest_task_redistribution tasks [] = Raise e.
Proof.
  intros Hne. unfold suggest_task_redistribution.
  destruct (sorted_tasks tasks) as [|task queue] eqn:Hq.
  - exfalso. apply Hne. apply Permutation_nil.
    rewrite <-(sort_by_reverse_Permutation Z.ltb priority tasks).
    unfold sorted_tasks in Hq. by rewrite Hq.
  - by eexists.
Qed.

(** X13. The two empty inputs.  With tasks to place and an empty roster
    the redistribution raises (the [min] over no agent); with no task it
    returns the roster with an empty list for every agent, also when the
    roster is empty. *)
Theorem suggest_task_redistribution_empty :
  (∀ tasks, tasks ≠ [] → ∃ e, suggest_task_redistribution tasks [] = Raise e)
  ∧ (∀ agents,
       suggest_task_redistribution [] agents = Done (empty_workload agents)
       ∧ keys (empty_workload agents) = first_occurrences agents
       ∧ ∀ agent, agent ∈ agents → get (empty_workload agents) agent = Some []).
Proof.
  split; [apply suggest_task_redistribution_no_agents|].
  - intros agents. split_and!; [done | apply keys_empty_workload |].
    intros agent Hagent.
    change (empty_workload agents) with (fill (λ _, @nil Task) [] agents).
    by rewrite get_fill, decide_True.
Qed.
End redistribution_more.

(** ** More on the calendar *)

Section calendar_more.
Implicit Types (b f s : TimeSlot) (busy_slots : list TimeSlot).

Lemma free_from_positive t_max busy_slots : ∀ current_time f,
  f ∈ free_from current_time busy_slots t_max →
  is_available f = true ∧ start_time f < end_time f.
Proof.
  induction busy_slots as [|b rest IH]; intros cur f Hf; simpl in Hf.
  - destruct (cur <? t_max) eqn:Hlt; [|by apply elem_of_nil in Hf].
    apply list_elem_of_singleton in Hf as ->. simpl. split; [done | lia].
  - apply elem_of_app in Hf as [Hf|Hf]; [|by eapply IH].
    destruct (cur <? start_time b) eqn:Hlt; [|by apply elem_of_nil in Hf].
    apply list_elem_of_singleton in Hf as ->. simpl. split; [done | lia].
Qed.

Lemma free_from_length t_max busy_slots : ∀ current_time,
  (length (free_from current_time busy_slots t_max) ≤ S (length busy_slots))%nat.
Proof.
  induction busy_slots as [|b rest IH]; intros cur; simpl.
  - destruct (cur <? t_max); simpl; lia.
  - rewrite length_app. specialize (IH (end_time b)).
    destruct (cur <? start_time b); simpl; lia.
Qed.

(** X14. Whatever the busy slots and their order, every slot
    [get_availability] returns is marked available and is not empty,
    there is at most one more free slot than busy slots, and every instant
    of the window that no busy slot covers lies in a returned slot: the
    sweep never loses free time, it can only report busy time as free. *)
Theorem get_availability_always busy_slots t_min t_max :
  (∀ f, f ∈ get_availability busy_slots t_min t_max →
     is_available f = true ∧ start_time f < end_time f)
  ∧ (length (get_availability busy_slots t_min t_max) ≤ S (length busy_slots))%nat
  ∧ (∀ p, t_min ≤ p < t_max → (∀ b, b ∈ busy_slots → ¬ covers b p) →
       ∃ f, f ∈ get_availability busy_slots t_min t_max ∧ covers f p).
Proof.
  rewrite get_availability_free_from. split_and!.
  - intros f. apply free_from_positive.
  - apply free_from_length.
  - intros p. apply free_from_complete.
Qed.

(** X15. A duration that is zero or negative is not rejected: the
    search then takes the first free slot whatever its length and returns
    a slot that ends at or before its own start; it returns nothing only
    when there is no free slot at all. *)
Theorem find_next_available_slot_nonpositive now busy_slots duration start_from :
  duration ≤ 0 →
  find_next_available_slot now busy_slots duration start_from
  = (λ f, slot (start_time f) (start_time f + duration) true)
    <$> head (get_availability busy_slots (default now start_from)
                (default now start_from + days 7)).
Proof.
  intros Hd. unfold find_next_available_slot. rewrite get_availability_free_from.
  pose proof (free_from_positive (default now start_from + days 7) busy_slots
                (default now start_from)) as Hpos.
  destruct (free_from _ _ _) as [|f l]; [done|]. simpl.
  destruct (Hpos f) as [_ Hf]; [apply elem_of_cons; by left|].
  by rewrite (proj2 (Z.leb_le _ _)) by lia.
Qed.

Lemma find_next_available_slot_nonpositive_witness :
  0 ≤ 0
  ∧ find_next_available_slot 0 example_busy 0 (Some 0) = Some (slot 0 0 true).
Proof.
  split; [reflexivity|].
  rewrite (find_next_available_slot_nonpositive 0 example_busy 0 (Some 0)); reflexivity.
Defined.

Lemma found_slot_sound now busy_slots duration start_from :
  0 < duration →
  Sorted follows busy_slots →
  Forall (meets_window (default now start_from) (default now start_from + days 7))
    busy_slots →
  (∀ s, find_next_available_slot now busy_slots duration start_from = Some s →
     is_available s = true
     ∧ end_time s = start_time s + duration
     ∧ within (default now start_from) (default now start_from + days 7) s
     ∧ ∀ b, b ∈ busy_slots → ¬ intersects s b)
  ∧ (days 7 < duration →
     find_next_available_slot now busy_slots duration start_from = None).
Proof.
  intros Hd Hsorted Hmeet.
  apply Sorted_StronglySorted in Hsorted; [|apply _].
  unfold find_next_available_slot. rewrite get_availability_free_from. split.
  - intros s (pre & f & post & Heq & _ & Hfit & ->)%first_fit_Some.
    assert (f ∈ free_from (default now start_from) busy_slots
                  (default now start_from + days 7)) as Hf.
    { rewrite Heq. apply elem_of_app. right. apply elem_of_cons. by left. }
    apply free_from_sound in Hf as (_ & Hlo & _ & Hhi & Hdisj); [| done | done].
    unfold duration_of in Hfit. unfold within. simpl.
    split_and!; [done | done | lia | lia |].
    intros b Hb Hint. apply (Hdisj b Hb). unfold intersects in *. simpl in Hint. lia.
  - intros Hlong. apply first_fit_None, Forall_forall. intros f Hf.
    apply free_from_sound in Hf as (_ & Hlo & _ & Hhi & _); [| done | done].
    unfold duration_of. lia.
Qed.

(** X16. With busy slots whose start times and end times are both
    non-decreasing along the list and which meet the seven-day window, a slot found for a positive duration is available,
    has exactly the duration, lies inside the window and meets no busy
    slot; and nothing is found for a duration longer than the window. *)
Theorem find_next_available_slot_safe now busy_slots duration start_from :
  0 < duration →
  Sorted follows busy_slots →
  Forall (meets_window (default now start_from) (default now start_from + days 7))
    busy_slots →
  (∀ s, find_next_available_slot now busy_slots duration start_from = Some s →
     is_available s = true
     ∧ end_time s = start_time s + duration
     ∧ within (default now start_from) (default now start_from + days 7) s
     ∧ ∀ b, b ∈ busy_slots → ¬ intersects s b)
  ∧ (days 7 < duration →
     find_next_available_slot now busy_slots duration start_from = None).
Proof. apply found_slot_sound. Qed.

Lemma find_next_available_slot_safe_witness :
  (∀ s, find_next_available_slot 0 example_busy (minutes 90) (Some 0) = Some s →
     is_available s = true
     ∧ end_time s = start_time s + minutes 90
     ∧ within 0 (0 + days 7) s
     ∧ ∀ b, b ∈ example_busy → ¬ intersects s b)
  ∧ (days 7 < minutes 90 →
     find_next_available_slot 0 example_busy (minutes 90) (Some 0) = None).
Proof.
  apply (find_next_available_slot_safe 0 example_busy (minutes 90) (Some 0)).
  - reflexivity.
  - repeat constructor; vm_compute; congruence.
  - repeat constructor; vm_compute; congruence.
Defined.
End calendar_more.

(** ** The notification agent *)

Section notifications.
Implicit Types (self : NotificationAgent) (n : Notification) (q : request).

Lemma process_loop_spec queue : ∀ history processed,
  process_loop queue history processed
  = ([], history ++ (sent <$> queue), processed ++ (sent <$> queue)).
Proof.
  induction queue as [|n queue IH]; intros history processed; simpl.
  - by rewrite !app_nil_r.
  - rewrite IH, <-!app_assoc. done.
Qed.

(** X17. [create_notification] numbers a notification by the length of
    the history, which only [process_notifications] extends: however many
    notifications are created in a row, the history and the settings stay
    as they are, the new notifications join the queue in order, all
    pending, and all carry one and the same id. *)
Theorem create_notification_ids self qs :
  notification_history (foldl create self qs) = notification_history self
  ∧ notification_settings (foldl create self qs) = notification_settings self
  ∧ ∃ created,
      notification_queue (foldl create self qs) = notification_queue self ++ created
      ∧ n_recipient <$> created = r_recipient <$> qs
      ∧ n_message <$> created = r_message <$> qs
      ∧ ∀ n, n ∈ created →
          n_id n = "notif_" +:+ pretty (S (length (notification_history self)))
          ∧ n_status n = "pending".
Proof.
  revert self. induction qs as [|q qs IH]; intros self; simpl.
  - split_and!; [done | done |]. exists []. rewrite app_nil_r.
    split_and!; [done | done | done |]. by intros n ?%elem_of_nil.
  - destruct (IH (create self q)) as (Hhist & Hset & created & Hqueue & Hrec & Hmsg & Hids).
    split_and!; [done | done |].
    exists ((create_notification (r_now q) (r_type q) (r_message q) (r_recipient q)
               (r_priority q) (r_related_task q) self).1 :: created).
    split_and!.
    + rewrite Hqueue. simpl. by rewrite <-app_assoc.
    + rewrite !fmap_cons, Hrec. done.
    + rewrite !fmap_cons, Hmsg. done.
    + intros n [->|Hn]%elem_of_cons; [done|]. by apply Hids.
Qed.

(** X18. [process_notifications] empties the queue into the history in
    queue order, marks each notification sent and returns them in that
    order; the settings are kept, and a second call right after finds
    nothing to process and changes nothing. *)
Theorem process_notifications_drains self :
  (process_notifications self).1 = sent <$> notification_queue self
  ∧ notification_queue (process_notifications self).2 = []
  ∧ notification_history (process_notifications self).2
    = notification_history self ++ (sent <$> notification_queue self)
  ∧ notification_settings (process_notifications self).2 = notification_settings self
  ∧ process_notifications (process_notifications self).2
    = ([], (process_notifications self).2).
Proof.
  unfold process_notifications. rewrite process_loop_spec. simpl.
  split_and!; done.
Qed.

Lemma timedelta_days_le_2 delta : timedelta_days delta ≤ 2 ↔ delta < days 3.
Proof.
  unfold timedelta_days.
  assert (0 < days 1) as Hday by reflexivity.
  assert (days 3 = days 1 * 3) as -> by reflexivity.
  split.
  - intros Hle. destruct (decide (delta < days 1 * 3)) as [|Hge]; [done|].
    assert (3 ≤ delta `div` days 1) by (apply Z.div_le_lower_bound; lia). lia.
  - intros Hlt. assert (delta `div` days 1 < 3) by (apply Z.div_lt_upper_bound; lia).
    lia.
Qed.

(** X19. [send_deadline_reminder] queues one reminder exactly when
    reminders are switched on and the task is due in less than three full
    days, which includes every overdue task and does not look at the
    task's status; the reminder goes to the assigned agent with priority
    high and names the task.  Otherwise the agent is left as it is. *)
Theorem send_deadline_reminder_threshold current_time now task self :
  (deadline_reminder (notification_settings self) = true
   ∧ due_date task - current_time < days 3 →
   ∃ n, send_deadline_reminder current_time now task self
        = {| notification_queue := notification_queue self ++ [n];
             notification_history := notification_history self;
             notification_settings := notification_settings self |}
      ∧ n_type n = "deadline_reminder"
      ∧ n_recipient n = assigned_to task
      ∧ n_priority n = "high"
      ∧ n_related_task n = Some (id task)
      ∧ n_status n = "pending")
  ∧ (¬ (deadline_reminder (notification_settings self) = true
        ∧ due_date task - current_time < days 3) →
     send_deadline_reminder current_time now task self = self).
Proof.
  unfold send_deadline_reminder.
  destruct (deadline_reminder (notification_settings self)); simpl.
  - destruct (timedelta_days _ <=? 2) eqn:Hle.
    + split; [|intros Hno; exfalso; apply Hno; split; [done|];
                 by apply timedelta_days_le_2, Z.leb_le].
      intros _. eexists. split; [done|]. by split_and!.
    + split; [|done]. intros [_ Hlt]. apply timedelta_days_le_2 in Hlt. lia.
  - split; [by intros [? _] | done].
Qed.
End notifications.

(** ** The orchestrator *)

Section orchestrator.
Implicit Types (o : SchedulerOrchestrator) (σ : state) (r task fresh : ref).

Lemma numbered_S n : numbered (S n) = numbered n ++ [next_id n].
Proof. unfold numbered. by rewrite seq_S, fmap_app. Qed.

Lemma next_id_fresh n : next_id n ∉ numbered n.
Proof.
  unfold numbered, next_id. intros (i & Heq & Hi)%list_elem_of_fmap.
  apply (inj (String.app "task_")) in Heq. apply (inj pretty) in Heq.
  apply elem_of_seq in Hi. lia.
Qed.

Lemma length_keys {V} (d : dict V) : length (keys d) = length d.
Proof. unfold keys. apply length_fmap. Qed.

Lemma write_eq (h : heap) r (t : Task) : write h r t r = t.
Proof. unfold write. by rewrite decide_True. Qed.

Lemma write_ne (h : heap) r (t : Task) r' : r' ≠ r → write h r t r' = h r'.
Proof. intros Hne. unfold write. by rewrite decide_False. Qed.

Lemma create_task_unfold fresh title description priority due_date dependencies o :
  create_task fresh title description priority due_date dependencies o
  = let σ := scheduler_agent o in
    let h :=
      write (objects σ) fresh
        {| id := next_id (length (tasks (self σ)));
           scheduler_agency.title := title;
           scheduler_agency.description := description;
           scheduler_agency.priority := priority;
           scheduler_agency.due_date := due_date;
           status := "pending"; assigned_to := "";
           scheduler_agency.dependencies := default [] dependencies;
           scheduled_start := None; scheduled_end := None;
           calendar_event_id := None |} in
    if contains (tasks (self σ)) (next_id (length (tasks (self σ))))
    then (None, with_store o {| objects := h; self := self σ |})
    else (Some fresh,
          with_store o
            {| objects := h;
               self := {| tasks := Py.set (tasks (self σ))
                                     (next_id (length (tasks (self σ)))) fresh;
                          agents := agents (self σ);
                          current_schedule := current_schedule (self σ) |} |}).
Proof.
  unfold create_task, add_task. cbn [objects self]. rewrite write_eq. cbn [id].
  fold (next_id (length (tasks (self (scheduler_agent o))))).
  by destruct (contains _ _).
Qed.

(** X20. [create_task] forms the id [task_(n+1)] from the number [n] of
    tasks in the table, so the call fails, returning [None] and leaving
    the table as it is, exactly when that id is already a key; otherwise
    it returns the new task, stored last under that id, pending,
    unassigned, unscheduled, with the dependencies given (none when the
    argument is missing), and no other object is touched. *)
Theorem create_task_result fresh title description priority due_date dependencies o :
  ((create_task fresh title description priority due_date dependencies o).1 = None
   ↔ next_id (length (tasks (self (scheduler_agent o))))
       ∈ keys (tasks (self (scheduler_agent o))))
  ∧ ((create_task fresh title description priority due_date dependencies o).1 = None →
     self (scheduler_agent
             (create_task fresh title description priority due_date dependencies o).2)
     = self (scheduler_agent o))
  ∧ ((create_task fresh title description priority due_date dependencies o).1 ≠ None →
     (create_task fresh title description priority due_date dependencies o).1
     = Some fresh
     ∧ keys (tasks (self (scheduler_agent
          (create_task fresh title description priority due_date dependencies o).2)))
       = keys (tasks (self (scheduler_agent o)))
         ++ [next_id (length (tasks (self (scheduler_agent o))))]
     ∧ get (tasks (self (scheduler_agent
          (create_task fresh title description priority due_date dependencies o).2)))
         (next_id (length (tasks (self (scheduler_agent o))))) = Some fresh)
  ∧ objects (scheduler_agent
               (create_task fresh title description priority due_date dependencies o).2)
      fresh
    = {| id := next_id (length (tasks (self (scheduler_agent o))));
         scheduler_agency.title := title;
         scheduler_agency.description := description;
         scheduler_agency.priority := priority;
         scheduler_agency.due_date := due_date;
         status := "pending"; assigned_to := "";
         scheduler_agency.dependencies := default [] dependencies;
         scheduled_start := None; scheduled_end := None;
         calendar_event_id := None |}
  ∧ (∀ r, r ≠ fresh →
       objects (scheduler_agent
                  (create_task fresh title description priority due_date dependencies o).2)
         r
       = objects (scheduler_agent o) r)
  ∧ notifier (create_task fresh title description priority due_date dependencies o).2
    = notifier o.
Proof.
  rewrite create_task_unfold. cbv zeta.
  destruct (contains _ _) eqn:Hc; cbn [fst snd with_store scheduler_agent notifier
                                        objects self tasks].
  - apply contains_keys in Hc.
    split_and!; [done | done | done | apply write_eq | | done].
    intros r Hne. by apply write_ne.
  - assert (next_id (length (tasks (self (scheduler_agent o))))
            ∉ keys (tasks (self (scheduler_agent o)))) as Hfresh.
    { intros Hin. apply contains_keys in Hin. congruence. }
    split_and!; [done | done | | apply write_eq | | done].
    + intros _. split_and!; [done | | apply get_set_eq].
      by rewrite keys_set, decide_False.
    + intros r Hne. by apply write_ne.
Qed.

(** X21. A table filled by [create_task] alone has the keys [task_1],
    ..., [task_n] in this order, and on such a table [create_task] always
    succeeds and keeps the numbering: ids it gives out never collide. *)
Theorem create_task_numbers fresh title description priority due_date dependencies o :
  keys (tasks (self (scheduler_agent o)))
  = numbered (length (tasks (self (scheduler_agent o)))) →
  (create_task fresh title description priority due_date dependencies o).1 = Some fresh
  ∧ keys (tasks (self (scheduler_agent
       (create_task fresh title description priority due_date dependencies o).2)))
    = numbered (S (length (tasks (self (scheduler_agent o)))))
  ∧ length (tasks (self (scheduler_agent
       (create_task fresh title description priority due_date dependencies o).2)))
    = S (length (tasks (self (scheduler_agent o)))).
Proof.
  intros Hkeys.
  pose proof (next_id_fresh (length (tasks (self (scheduler_agent o))))) as Hfresh.
  rewrite <-Hkeys in Hfresh.
  assert (contains (tasks (self (scheduler_agent o)))
            (next_id (length (tasks (self (scheduler_agent o))))) = false) as Hc.
  { apply not_true_is_false. by rewrite contains_keys. }
  rewrite create_task_unfold. cbv zeta. rewrite Hc.
  cbn [fst snd with_store scheduler_agent self tasks].
  assert (keys (Py.set (tasks (self (scheduler_agent o)))
                  (next_id (length (tasks (self (scheduler_agent o))))) fresh)
          = numbered (S (length (tasks (self (scheduler_agent o)))))) as Hnew.
  { rewrite keys_set, decide_False, numbered_S by done. by rewrite <-Hkeys. }
  split_and!; [done | done |].
  rewrite <-(length_keys (Py.set _ _ _)), Hnew. unfold numbered.
  by rewrite length_fmap, length_seq.
Qed.

Lemma create_task_numbers_witness :
  (create_task 5%nat "title" "text" 1 0 None
     (create_task 4%nat "title" "text" 2 0 (Some ["task_1"])
        (sample_orchestrator [])).2).1 = Some 5%nat
  ∧ keys (tasks (self (scheduler_agent
       (create_task 5%nat "title" "text" 1 0 None
          (create_task 4%nat "title" "text" 2 0 (Some ["task_1"])
             (sample_orchestrator [])).2).2)))
    = ["task_1"; "task_2"].
Proof.
  destruct (create_task_numbers 5%nat "title" "text" 1 0 None
              (create_task 4%nat "title" "text" 2 0 (Some ["task_1"])
                 (sample_orchestrator [])).2) as (Hok & Hkeys & _).
  - reflexivity.
  - split; [exact Hok | exact Hkeys].
Defined.
End orchestrator.

(** ** Reservations and the assignment run *)

Section reservations.
Implicit Types (o : SchedulerOrchestrator) (σ : state) (r task : ref)
  (busy_slots : list TimeSlot).

(** X22. [find_available_time_for_task] asks for two hours per unit of
    priority from the current instant.  When no slot is found nothing
    changes.  When one is found it is returned and written to the task as
    its scheduled start and end, and that is all: the task's other
    attributes (its calendar reference among them, no calendar entry being
    made), every other object, the store and the notifications stay as
    they were. *)
Theorem find_available_time_for_task_frame now busy_slots task o :
  find_next_available_slot now busy_slots
    (hours (2 * priority (objects (scheduler_agent o) task))) (Some now)
  = (find_available_time_for_task now busy_slots task o).1
  ∧ ((find_available_time_for_task now busy_slots task o).1 = None →
     (find_available_time_for_task now busy_slots task o).2 = o)
  ∧ (∀ s, (find_available_time_for_task now busy_slots task o).1 = Some s →
       end_time s
       = start_time s + hours (2 * priority (objects (scheduler_agent o) task))
       ∧ objects (scheduler_agent (find_available_time_for_task now busy_slots task o).2)
           task
         = with_scheduled (objects (scheduler_agent o) task) (start_time s) (end_time s)
       ∧ calendar_event_id
           (objects (scheduler_agent (find_available_time_for_task now busy_slots task o).2)
              task)
         = calendar_event_id (objects (scheduler_agent o) task)
       ∧ status
           (objects (scheduler_agent (find_available_time_for_task now busy_slots task o).2)
              task)
         = status (objects (scheduler_agent o) task)
       ∧ (∀ r, r ≠ task →
            objects (scheduler_agent (find_available_time_for_task now busy_slots task o).2)
              r
            = objects (scheduler_agent o) r)
       ∧ self (scheduler_agent (find_available_time_for_task now busy_slots task o).2)
         = self (scheduler_agent o)
       ∧ notifier (find_available_time_for_task now busy_slots task o).2 = notifier o).
Proof.
  unfold find_available_time_for_task.
  destruct (find_next_available_slot _ _ _ _) as [s0|] eqn:Hfind;
    cbn [fst snd with_store scheduler_agent notifier objects self].
  - split_and!; [done | done |]. intros s [= <-].
    split_and!; [| apply write_eq | by rewrite write_eq | by rewrite write_eq
                 | | done | done].
    + unfold find_next_available_slot in Hfind.
      apply first_fit_Some in Hfind as (_ & f & _ & _ & _ & _ & ->). done.
    + intros r Hne. by apply write_ne.
  - split_and!; [done | done | done].
Qed.

(** X23. For a task of priority at least 1, with events whose start
    times and end times are both non-decreasing along the list (none
    nested in an earlier one) and which meet the seven days after the
    current instant,
    the reservation [find_available_time_for_task] writes starts before it
    ends, lies within those seven days and overlaps no event; a task of
    priority 0 or less, when a free slot exists, is given a reservation
    that ends at or before its start. *)
Theorem find_available_time_for_task_reserves now busy_slots task o :
  Sorted follows busy_slots →
  Forall (meets_window now (now + days 7)) busy_slots →
  (1 ≤ priority (objects (scheduler_agent o) task) →
   ∀ s, (find_available_time_for_task now busy_slots task o).1 = Some s →
     scheduled_start
       (objects (scheduler_agent (find_available_time_for_task now busy_slots task o).2)
          task) = Some (start_time s)
     ∧ scheduled_end
         (objects (scheduler_agent (find_available_time_for_task now busy_slots task o).2)
            task) = Some (end_time s)
     ∧ start_time s < end_time s
     ∧ within now (now + days 7) s
     ∧ ∀ b, b ∈ busy_slots → ¬ intersects s b)
  ∧ (priority (objects (scheduler_agent o) task) ≤ 0 →
     ∀ s, (find_available_time_for_task now busy_slots task o).1 = Some s →
       end_time s ≤ start_time s).
Proof.
  intros Hsorted Hmeet. unfold find_available_time_for_task.
  destruct (find_next_available_slot _ _ _ _) as [s0|] eqn:Hfind;
    cbn [fst snd with_store scheduler_agent objects]; [|done].
  split.
  - intros Hp s [= <-]. rewrite write_eq. cbn [scheduled_start scheduled_end with_scheduled].
    assert (0 < hours (2 * priority (objects (scheduler_agent o) task))) as Hd.
    { unfold hours, minutes, microseconds_per_minute. lia. }
    destruct (found_slot_sound now busy_slots _ (Some now) Hd Hsorted Hmeet) as [Hsound _].
    destruct (Hsound s0 Hfind) as (_ & Hend & Hwithin & Hdisj).
    split_and!; [done | done | lia | done | done].
  - intros Hp s [= <-].
    unfold find_next_available_slot in Hfind.
    apply first_fit_Some in Hfind as (_ & f & _ & _ & _ & _ & ->). simpl.
    unfold hours, minutes, microseconds_per_minute. lia.
Qed.

Lemma find_available_time_for_task_reserves_witness :
  ∃ s, (find_available_time_for_task 0 example_busy 0%nat (sample_orchestrator [])).1
       = Some s
     ∧ start_time s < end_time s
     ∧ within 0 (0 + days 7) s
     ∧ ∀ b, b ∈ example_busy → ¬ intersects s b.
Proof.
  destruct (find_available_time_for_task_reserves 0 example_busy 0%nat
              (sample_orchestrator [])) as [Hres _].
  - repeat constructor; vm_compute; congruence.
  - repeat constructor; vm_compute; congruence.
  - exists (slot (hours 6) (hours 10) true).
    destruct (Hres ltac:(vm_compute; congruence) (slot (hours 6) (hours 10) true))
      as (_ & _ & Hlt & Hwithin & Hdisj); [reflexivity|].
    split_and!; [reflexivity | exact Hlt | exact Hwithin | exact Hdisj].
Defined.
End reservations.

(** ** [assign_and_optimize_tasks] *)

Section assignment_run.
Context (str_datetime : Z → string) (clock : nat → Z).
Implicit Types (o : SchedulerOrchestrator) (σ : state) (r : ref)
  (dist : dict (list Task)).

Lemma assign_steps_store agent tasks : ∀ st : SchedulerOrchestrator * nat,
  scheduler_agent (foldl (assign_step str_datetime clock agent) st tasks).1
  = foldl assign_pair (scheduler_agent st.1) ((λ task, (id task, agent)) <$> tasks).
Proof.
  induction tasks as [|task tasks IH]; intros [o turn]; [done|].
  cbn [foldl fmap list_fmap]. by rewrite IH.
Qed.

Lemma assign_loop_store dist : ∀ st : SchedulerOrchestrator * nat,
  scheduler_agent
    (foldl (λ st '(agent, tasks), foldl (assign_step str_datetime clock agent) st tasks)
       st (items dist)).1
  = foldl assign_pair (scheduler_agent st.1) (assignments dist).
Proof.
  unfold assignments, items.
  induction dist as [|[agent tasks] dist IH]; intros st; [done|].
  cbn [foldl]. rewrite IH, assign_steps_store. csimpl. by rewrite foldl_app.
Qed.

Lemma assignments_fst dist : (assignments dist).*1 = id <$> concat (values dist).
Proof.
  unfold assignments, items, values.
  induction dist as [|[agent tasks] dist IH]; [done|].
  csimpl. rewrite !fmap_app, IH. f_equal.
  rewrite <-list_fmap_compose. done.
Qed.

Lemma assignments_agent dist key agent :
  (key, agent) ∈ assignments dist → agent ∈ keys dist.
Proof.
  unfold assignments, items, keys.
  induction dist as [|[a tasks] dist IH]; [by intros ?%elem_of_nil|].
  csimpl. intros [Hin|Hin]%elem_of_app.
  - apply list_elem_of_fmap in Hin as (task & [= _ ->] & _). apply elem_of_cons. by left.
  - apply elem_of_cons. right. by apply IH.
Qed.

Lemma stored_ids σ :
  consistent σ → id <$> (objects σ <$> values (tasks (self σ))) = keys (tasks (self σ)).
Proof.
  intros [Hnd Hid].
  assert (∀ key r, (key, r) ∈ items (tasks (self σ)) → id (objects σ r) = key) as Hall.
  { intros key r Hin. by apply Hid, get_items. }
  unfold values, keys, items in *. clear Hnd Hid.
  induction (tasks (self σ)) as [|[key r] d IH]; [done|].
  csimpl. rewrite (Hall key r) by (apply elem_of_cons; by left).
  f_equal. apply IH. intros k' r' Hin. apply Hall, elem_of_cons. by right.
Qed.

Lemma assign_pair_run_call σ ka : assign_pair σ ka = run_call σ (AssignTask ka.1 ka.2).
Proof. done. Qed.

(** A run of assignments with distinct stored ids and registered agents
    gives every id its agent and touches nothing else. *)
Lemma assign_all pairs : ∀ σ,
  consistent σ →
  NoDup pairs.*1 →
  (∀ key agent, (key, agent) ∈ pairs →
     key ∈ keys (tasks (self σ)) ∧ agent ∈ agents (self σ)) →
  self (foldl assign_pair σ pairs) = self σ
  ∧ (∀ key agent r, (key, agent) ∈ pairs → get (tasks (self σ)) key = Some r →
       assigned_to (objects (foldl assign_pair σ pairs) r) = agent)
  ∧ (∀ r, (∀ key agent, (key, agent) ∈ pairs → get (tasks (self σ)) key ≠ Some r) →
       objects (foldl assign_pair σ pairs) r = objects σ r).
Proof.
  induction pairs as [|[key agent] pairs IH]; intros σ Hσ Hnd Hin.
  - split_and!; [done | | done]. by intros ??? ?%elem_of_nil.
  - cbn [foldl]. apply NoDup_cons in Hnd as [Hkey Hnd].
    destruct (Hin key agent) as [[r0 Hr0]%get_is_Some Hagent]; [apply elem_of_cons; by left|].
    assert (assign_pair σ (key, agent)
            = {| objects := write (objects σ) r0 (with_assigned_to (objects σ r0) agent);
                 self := self σ |}) as Hstep.
    { unfold assign_pair, assign_task. simpl. by rewrite Hr0, bool_decide_eq_true_2. }
    assert (consistent (assign_pair σ (key, agent))) as Hσ1
      by (rewrite assign_pair_run_call; by apply run_call_consistent).
    destruct (IH (assign_pair σ (key, agent)) Hσ1 Hnd) as (Hself & Hassigned & Hrest).
    { rewrite Hstep. simpl. intros k a Hka. apply Hin, elem_of_cons. by right. }
    rewrite Hstep in Hself, Hassigned, Hrest. simpl in Hself, Hassigned, Hrest.
    rewrite Hstep.
    assert (∀ k a, (k, a) ∈ pairs → get (tasks (self σ)) k ≠ Some r0) as Hother.
    { intros k a Hka Hk. destruct Hσ as [_ Hid].
      apply Hid in Hk. apply Hid in Hr0. apply Hkey.
      apply list_elem_of_fmap. exists (k, a). split; [simpl; congruence | done]. }
    split_and!; [done | |].
    + intros k a r [[= -> ->]|Hka]%elem_of_cons Hr.
      * assert (r = r0) as -> by congruence.
        rewrite (Hrest r0 Hother). simpl. by rewrite write_eq.
      * by eapply Hassigned.
    + intros r Hr. rewrite Hrest.
      * simpl. apply write_ne. intros ->.
        apply (Hr key agent); [apply elem_of_cons; by left | done].
      * intros k a Hka. apply (Hr k a), elem_of_cons. by right.
Qed.

(** X24. On a consistent store with a non-empty roster
    [assign_and_optimize_tasks] returns, keeps the table and the roster,
    stores the schedule it returns, and leaves every stored task assigned
    to a registered agent and listed in that agent's part of the
    schedule. *)
Theorem assign_and_optimize_tasks_assigns o :
  consistent (scheduler_agent o) →
  agents (self (scheduler_agent o)) ≠ [] →
  ∃ schedule o',
    assign_and_optimize_tasks str_datetime clock o = Done (schedule, o')
    ∧ tasks (self (scheduler_agent o')) = tasks (self (scheduler_agent o))
    ∧ agents (self (scheduler_agent o')) = agents (self (scheduler_agent o))
    ∧ current_schedule (self (scheduler_agent o')) = schedule
    ∧ ∀ key r, get (tasks (self (scheduler_agent o))) key = Some r →
        assigned_to (objects (scheduler_agent o') r) ∈ agents (self (scheduler_agent o))
        ∧ ∃ lst, get schedule (assigned_to (objects (scheduler_agent o') r)) = Some lst
               ∧ r ∈ lst.
Proof.
  intros Hσ Hroster. unfold assign_and_optimize_tasks. cbv zeta.
  set (σ := scheduler_agent o) in *.
  set (all_tasks := objects σ <$> values (tasks (self σ))).
  destruct (for_each_place_concat (sorted_tasks all_tasks) (empty_workload (agents (self σ))))
    as (dist & Hrun & Hkeys & Hperm);
    [apply NoDup_empty_workload | by apply keys_empty_workload_nonempty |].
  unfold suggest_task_redistribution. rewrite Hrun. cbn [bind].
  rewrite concat_values_empty_workload in Hperm. simpl in Hperm.
  rewrite (sort_by_reverse_Permutation Z.ltb priority all_tasks) in Hperm.
  pose proof (assign_loop_store dist (o, 0%nat)) as Hstore. cbn [fst] in Hstore.
  destruct (foldl _ (o, 0%nat) (items dist)) as [o1 turns]. cbn [fst] in Hstore.
  fold σ in Hstore.
  assert ((assignments dist).*1 ≡ₚ keys (tasks (self σ))) as Hids.
  { rewrite assignments_fst, Hperm. unfold all_tasks. by rewrite stored_ids. }
  destruct (assign_all (assignments dist) σ Hσ) as (Hself & Hassigned & _).
  { rewrite Hids. apply Hσ. }
  { intros key agent Hin. split.
    - rewrite <-Hids. apply list_elem_of_fmap. by exists (key, agent).
    - apply assignments_agent in Hin. rewrite Hkeys, keys_empty_workload in Hin.
      by rewrite first_occurrences_elem in Hin. }
  rewrite <-Hstore in Hself, Hassigned.
  eexists _, _. split; [done|].
  cbn [with_store scheduler_agent optimize_schedule snd fst self tasks agents
       current_schedule objects].
  rewrite Hself. split_and!; [done | done | done |].
  intros key r Hr.
  assert (key ∈ (assignments dist).*1) as (ka & Hka & Hin)%list_elem_of_fmap.
  { rewrite Hids. apply get_is_Some. eauto. }
  destruct ka as [key' agent]. simpl in Hka. subst key'.
  rewrite (Hassigned key agent r Hin Hr).
  assert (agent ∈ agents (self σ)) as Hagent.
  { apply assignments_agent in Hin. rewrite Hkeys, keys_empty_workload in Hin.
    by rewrite first_occurrences_elem in Hin. }
  split; [done|]. eexists.
  change (foldl _ [] (agents (self σ)))
    with (fill (agent_tasks (objects (scheduler_agent o1)) (tasks (self σ))) []
            (agents (self σ))).
  rewrite get_fill, decide_True by done. split; [done|].
  apply elem_of_agent_tasks. split; [by apply (Hassigned key agent r)|].
  apply elem_of_values. exists key. by apply get_Some_items.
Qed.

(** X25. The edge cases of [assign_and_optimize_tasks].  With stored
    tasks and an empty roster the optimizer's exception leaves the method
    before anything is written; with no stored task the method returns a
    schedule with an empty list for every registered agent and writes
    nothing but that schedule. *)
Theorem assign_and_optimize_tasks_edges o :
  (tasks (self (scheduler_agent o)) ≠ [] →
   agents (self (scheduler_agent o)) = [] →
   ∃ e, assign_and_optimize_tasks str_datetime clock o = Raise e)
  ∧ (tasks (self (scheduler_agent o)) = [] →
     ∃ schedule o',
       assign_and_optimize_tasks str_datetime clock o = Done (schedule, o')
       ∧ (∀ agent, agent ∈ agents (self (scheduler_agent o)) →
            get schedule agent = Some [])
       ∧ objects (scheduler_agent o') = objects (scheduler_agent o)
       ∧ notifier o' = notifier o).
Proof.
  split.
  - intros Htasks Hagents. unfold assign_and_optimize_tasks. cbv zeta. rewrite Hagents.
    destruct (suggest_task_redistribution_no_agents
                (objects (scheduler_agent o) <$> values (tasks (self (scheduler_agent o)))))
      as [e ->]; [|by exists e].
    unfold values. destruct (tasks (self (scheduler_agent o))); done.
  - intros Htasks. unfold assign_and_optimize_tasks. cbv zeta. rewrite Htasks.
    change (suggest_task_redistribution (objects (scheduler_agent o) <$> values []) _)
      with (Done (empty_workload (agents (self (scheduler_agent o))))).
    cbn [bind].
    assert (∀ st : SchedulerOrchestrator * nat,
              foldl (λ st '(agent, tasks),
                       foldl (assign_step str_datetime clock agent) st tasks)
                st (items (empty_workload (agents (self (scheduler_agent o))))) = st)
      as Hloop.
    { assert (∀ item, item ∈ items (empty_workload (agents (self (scheduler_agent o)))) →
                      item.2 = []) as Hempty.
      { intros [agent ts] Hin. simpl.
        apply get_items in Hin; [|apply NoDup_empty_workload].
        pose proof (get_empty_workload (agents (self (scheduler_agent o))) agent) as Hget.
        unfold get_default in Hget. by rewrite Hin in Hget. }
      unfold items in *.
      induction (empty_workload (agents (self (scheduler_agent o)))) as [|[a ts] d IH];
        intros st; [done|].
      assert (ts = []) as -> by (apply (Hempty (a, ts)), elem_of_cons; by left).
      cbn [foldl]. apply IH. intros item Hin. apply Hempty, elem_of_cons. by right. }
    rewrite Hloop. eexists _, _. split; [done|].
    cbn [with_store scheduler_agent optimize_schedule snd fst self tasks agents
         current_schedule objects notifier].
    split_and!; [| done | done].
    intros agent Hagent. rewrite Htasks.
    change (foldl _ [] (agents (self (scheduler_agent o))))
      with (fill (agent_tasks (objects (scheduler_agent o)) []) []
              (agents (self (scheduler_agent o)))).
    by rewrite get_fill, decide_True.
Qed.
End assignment_run.

Lemma assign_and_optimize_tasks_assigns_witness :
  ∃ schedule o',
    assign_and_optimize_tasks (λ _, "") (λ _, 0)
      (with_store (sample_orchestrator ["agent_1"; "agent_2"])
         (run_calls (sample_state ["agent_1"; "agent_2"]) [AddTask 0%nat; AddTask 1%nat]))
    = Done (schedule, o')
    ∧ schedule = [("agent_1", [0%nat]); ("agent_2", [1%nat])].
Proof.
  destruct (assign_and_optimize_tasks_assigns (λ _, "") (λ _, 0)
              (with_store (sample_orchestrator ["agent_1"; "agent_2"])
                 (run_calls (sample_state ["agent_1"; "agent_2"])
                    [AddTask 0%nat; AddTask 1%nat])))
    as (schedule & o' & Hrun & _).
  - apply run_calls_consistent_inv, sample_state_consistent.
  - done.
  - exists schedule, o'. split; [exact Hrun|].
    vm_compute in Hrun. by injection Hrun as <- _.
Defined.

(** ** The notifications of [assign_and_optimize_tasks] *)

Section assignment_notifications.
Context (str_datetime : Z → string) (clock : nat → Z).
Implicit Types (o : SchedulerOrchestrator) (σ : state) (r : ref)
  (dist : dict (list Task)).

Lemma assign_steps_notifier agent tasks : ∀ st : SchedulerOrchestrator * nat,
  task_assignment (notification_settings (notifier st.1)) = true →
  ∃ new,
    notifier (foldl (assign_step str_datetime clock agent) st tasks).1
    = {| notification_queue := notification_queue (notifier st.1) ++ new;
         notification_history := notification_history (notifier st.1);
         notification_settings := notification_settings (notifier st.1) |}
    ∧ about <$> new = (λ task, (Some (id task), agent)) <$> tasks
    ∧ Forall (λ n, n_type n = "task_assignment" ∧ n_status n = "pending") new.
Proof.
  induction tasks as [|task tasks IH]; intros [o turn] Hon; simpl in Hon.
  - exists []. rewrite app_nil_r. simpl.
    split_and!; [by destruct (notifier o) | done | done].
  - cbn [foldl].
    destruct (IH (assign_step str_datetime clock agent (o, turn) task))
      as (new & Heq & Habout & Hall).
    { simpl. unfold send_task_assignment_notification. by rewrite Hon. }
    rewrite Heq. clear Heq IH.
    simpl. unfold send_task_assignment_notification. rewrite Hon. simpl.
    eexists (_ :: new). rewrite <-app_assoc. split_and!; [done | |].
    + rewrite !fmap_cons, Habout. done.
    + constructor; [done | done].
Qed.

Lemma assign_loop_notifier dist : ∀ st : SchedulerOrchestrator * nat,
  task_assignment (notification_settings (notifier st.1)) = true →
  ∃ new,
    notifier
      (foldl (λ st '(agent, tasks), foldl (assign_step str_datetime clock agent) st tasks)
         st (items dist)).1
    = {| notification_queue := notification_queue (notifier st.1) ++ new;
         notification_history := notification_history (notifier st.1);
         notification_settings := notification_settings (notifier st.1) |}
    ∧ about <$> new = (λ ka : string * string, (Some ka.1, ka.2)) <$> assignments dist
    ∧ Forall (λ n, n_type n = "task_assignment" ∧ n_status n = "pending") new.
Proof.
  unfold assignments, items.
  induction dist as [|[agent tasks] dist IH]; intros st Hon.
  - exists []. rewrite app_nil_r. simpl.
    split_and!; [by destruct (notifier st.1) | done | done].
  - cbn [foldl].
    destruct (assign_steps_notifier agent tasks st Hon) as (new1 & Heq1 & Habout1 & Hall1).
    edestruct (IH (foldl (assign_step str_datetime clock agent) st tasks))
      as (new2 & Heq2 & Habout2 & Hall2); [by rewrite Heq1|].
    exists (new1 ++ new2). rewrite Heq2, Heq1. simpl. rewrite <-app_assoc.
    split_and!; [done | | by apply Forall_app].
    csimpl. rewrite !fmap_app, Habout1, Habout2. f_equal.
    by rewrite <-list_fmap_compose.
Qed.

Lemma assign_loop_silent dist : ∀ st : SchedulerOrchestrator * nat,
  task_assignment (notification_settings (notifier st.1)) = false →
  notifier
    (foldl (λ st '(agent, tasks), foldl (assign_step str_datetime clock agent) st tasks)
       st (items dist)).1
  = notifier st.1.
Proof.
  assert (∀ agent tasks (st : SchedulerOrchestrator * nat),
            task_assignment (notification_settings (notifier st.1)) = false →
            notifier (foldl (assign_step str_datetime clock agent) st tasks).1
            = notifier st.1) as Hinner.
  { intros agent tasks. induction tasks as [|task tasks IH]; intros [o turn] Hoff; [done|].
    cbn [foldl]. rewrite IH; simpl in *;
      unfold send_task_assignment_notification; by rewrite Hoff. }
  unfold items. induction dist as [|[agent tasks] dist IH]; intros st Hoff; [done|].
  cbn [foldl]. rewrite IH, Hinner; [done | done | by rewrite Hinner].
Qed.

(** The facts about the optimizer's result and the assignments that the
    statements on [assign_and_optimize_tasks] share. *)
Lemma assignment_facts σ :
  consistent σ → agents (self σ) ≠ [] →
  ∃ dist,
    suggest_task_redistribution (objects σ <$> values (tasks (self σ))) (agents (self σ))
    = Done dist
    ∧ (assignments dist).*1 ≡ₚ keys (tasks (self σ))
    ∧ ∀ key agent r, (key, agent) ∈ assignments dist →
        get (tasks (self σ)) key = Some r →
        assigned_to (objects (foldl assign_pair σ (assignments dist)) r) = agent.
Proof.
  intros Hσ Hroster.
  destruct (for_each_place_concat
              (sorted_tasks (objects σ <$> values (tasks (self σ))))
              (empty_workload (agents (self σ))))
    as (dist & Hrun & Hkeys & Hperm);
    [apply NoDup_empty_workload | by apply keys_empty_workload_nonempty |].
  rewrite concat_values_empty_workload in Hperm. simpl in Hperm.
  rewrite (sort_by_reverse_Permutation Z.ltb priority) in Hperm.
  assert ((assignments dist).*1 ≡ₚ keys (tasks (self σ))) as Hids.
  { by rewrite assignments_fst, Hperm, stored_ids. }
  exists dist. split_and!; [done | done |].
  destruct (assign_all (assignments dist) σ Hσ) as (_ & Hassigned & _); [| | done].
  - rewrite Hids. apply Hσ.
  - intros key agent Hin. split.
    + rewrite <-Hids. apply list_elem_of_fmap. by exists (key, agent).
    + apply assignments_agent in Hin. rewrite Hkeys, keys_empty_workload in Hin.
      by rewrite first_occurrences_elem in Hin.
Qed.

(** X26. With assignment notifications switched on,
    [assign_and_optimize_tasks] on a consistent store with a non-empty
    roster queues exactly one notification per stored task, of type
    [task_assignment], pending, naming the task and addressed to the agent
    the task is assigned to at the end; with the switch off it queues
    nothing.  The history is never touched. *)
Theorem assign_and_optimize_tasks_notifies o :
  consistent (scheduler_agent o) →
  agents (self (scheduler_agent o)) ≠ [] →
  ∃ schedule o',
    assign_and_optimize_tasks str_datetime clock o = Done (schedule, o')
    ∧ notification_history (notifier o') = notification_history (notifier o)
    ∧ (task_assignment (notification_settings (notifier o)) = false →
       notifier o' = notifier o)
    ∧ (task_assignment (notification_settings (notifier o)) = true →
       ∃ new,
         notification_queue (notifier o') = notification_queue (notifier o) ++ new
         ∧ length new = length (tasks (self (scheduler_agent o)))
         ∧ n_related_task <$> new ≡ₚ Some <$> keys (tasks (self (scheduler_agent o)))
         ∧ ∀ n, n ∈ new →
             n_type n = "task_assignment" ∧ n_status n = "pending"
             ∧ ∃ key r, n_related_task n = Some key
                      ∧ get (tasks (self (scheduler_agent o))) key = Some r
                      ∧ assigned_to (objects (scheduler_agent o') r) = n_recipient n).
Proof.
  intros Hσ Hroster. unfold assign_and_optimize_tasks. cbv zeta.
  destruct (assignment_facts (scheduler_agent o) Hσ Hroster)
    as (dist & -> & Hids & Hassigned).
  cbn [bind].
  pose proof (assign_loop_store str_datetime clock dist (o, 0%nat)) as Hstore.
  pose proof (assign_loop_notifier dist (o, 0%nat)) as Hon.
  pose proof (assign_loop_silent dist (o, 0%nat)) as Hoff.
  destruct (foldl _ (o, 0%nat) (items dist)) as [o1 turns].
  cbn [fst] in Hstore, Hon, Hoff.
  eexists _, _. split; [done|].
  cbn [with_store notifier scheduler_agent optimize_schedule snd objects].
  rewrite Hstore. split_and!.
  - destruct (task_assignment (notification_settings (notifier o))) eqn:Hswitch.
    + destruct (Hon eq_refl) as (new & -> & _). done.
    + by rewrite Hoff.
  - done.
  - intros Hswitch. destruct (Hon Hswitch) as (new & -> & Habout & Hall).
    exists new. cbn [notification_queue]. split_and!; [done | | |].
    + rewrite <-(length_fmap about new), Habout, length_fmap.
      rewrite <-(length_fmap fst (assignments dist)), Hids. apply length_keys.
    + rewrite <-Hids.
      change (n_related_task <$> new) with ((fst ∘ about) <$> new).
      rewrite (list_fmap_compose about fst), Habout, <-!list_fmap_compose.
      done.
    + intros n Hn. rewrite Forall_forall in Hall. destruct (Hall n Hn) as [Htype Hstatus].
      split_and!; [done | done |].
      assert (about n ∈ about <$> new) as Hin by by apply list_elem_of_fmap_2.
      rewrite Habout in Hin. apply list_elem_of_fmap in Hin as ([key agent] & Heq & Hka).
      unfold about in Heq. simpl in Heq. injection Heq as Hrel Hrec.
      assert (key ∈ keys (tasks (self (scheduler_agent o)))) as [r Hr]%get_is_Some.
      { rewrite <-Hids. apply list_elem_of_fmap. by exists (key, agent). }
      exists key, r. split_and!; [done | done |].
      rewrite Hrec. by eapply Hassigned.
Qed.
End assignment_notifications.

Lemma assign_and_optimize_tasks_notifies_witness :
  ∃ schedule o',
    assign_and_optimize_tasks (λ _, "") (λ _, 0)
      (with_store (sample_orchestrator ["agent_1"; "agent_2"])
         (run_calls (sample_state ["agent_1"; "agent_2"]) [AddTask 0%nat; AddTask 1%nat]))
    = Done (schedule, o')
    ∧ n_recipient <$> notification_queue (notifier o') = ["agent_1"; "agent_2"].
Proof.
  destruct (assign_and_optimize_tasks_notifies (λ _, "") (λ _, 0)
              (with_store (sample_orchestrator ["agent_1"; "agent_2"])
                 (run_calls (sample_state ["agent_1"; "agent_2"])
                    [AddTask 0%nat; AddTask 1%nat])))
    as (schedule & o' & Hrun & _).
  - apply run_calls_consistent_inv, sample_state_consistent.
  - done.
  - exists schedule, o'. split; [exact Hrun|].
    vm_compute in Hrun. by injection Hrun as _ <-.
Defined.

(** ** Histories *)

Section histories.
Implicit Types (self : NotificationAgent) (n : Notification).

Lemma filter_sent recipient (l : list Notification) :
  filter (λ n, n_recipient n = recipient) (sent <$> l)
  = sent <$> filter (λ n, n_recipient n = recipient) l.
Proof.
  induction l as [|n l IH]; [done|].
  rewrite fmap_cons, !filter_cons. simpl.
  destruct (decide (n_recipient n = recipient)); by rewrite IH.
Qed.

(** X27. A notification reaches a recipient's history only through
    [process_notifications]: for a non-empty recipient the history after
    processing is the history before, followed by the queued notifications
    addressed to that recipient, marked sent, in queue order.  An empty
    recipient is taken as no recipient: the whole history is returned. *)
Theorem get_notification_history_after_processing self :
  (∀ recipient, recipient ≠ "" →
     get_notification_history (Some recipient) self
     = filter (λ n, n_recipient n = recipient) (notification_history self)
     ∧ get_notification_history (Some recipient) (process_notifications self).2
       = get_notification_history (Some recipient) self
         ++ (sent <$> filter (λ n, n_recipient n = recipient) (notification_queue self)))
  ∧ get_notification_history (Some "") self = notification_history self
  ∧ get_notification_history None self = notification_history self.
Proof.
  split_and!; [|done|done].
  intros recipient Hne. unfold get_notification_history.
  destruct (decide (recipient = "")) as [?|_]; [done|]. split; [done|].
  unfold process_notifications. rewrite process_loop_spec. simpl.
  by rewrite filter_app, filter_sent.
Qed.
End histories.

(** ** Deadline reminders of the orchestrator *)

Section deadlines.
Context (utc_now now : nat → Z).
Implicit Types (o : SchedulerOrchestrator) (σ : state).

Lemma remind_steps σ l : ∀ st : NotificationAgent * nat,
  deadline_reminder (notification_settings st.1) = true →
  ∃ new,
    (foldl (remind_step utc_now now σ) st l).1
    = {| notification_queue := notification_queue st.1 ++ new;
         notification_history := notification_history st.1;
         notification_settings := notification_settings st.1 |}
    ∧ about <$> new
      = (λ kr : nat * ref, (Some (id (objects σ kr.2)), assigned_to (objects σ kr.2)))
        <$> filter (λ kr : nat * ref, due_date (objects σ kr.2) - utc_now kr.1 < days 3)
              (imap (λ k r, ((st.2 + k)%nat, r)) l)
    ∧ Forall (λ n, n_type n = "deadline_reminder" ∧ n_priority n = "high"
                   ∧ n_status n = "pending") new.
Proof.
  induction l as [|task l IH]; intros [agent turn] Hon; simpl in Hon.
  - exists []. rewrite app_nil_r. simpl. split_and!; [by destruct agent | done | done].
  - cbn [foldl]. rewrite imap_cons.
    rewrite (imap_ext _ (λ k r, ((S turn + k)%nat, r)) l)
      by (intros; simpl; f_equal; lia).
    rewrite filter_cons. cbn [fst snd]. rewrite Nat.add_0_r.
    destruct (IH (remind_step utc_now now σ (agent, turn) task))
      as (new & Heq & Habout & Hall).
    { simpl. unfold send_deadline_reminder. rewrite Hon. simpl.
      by destruct (timedelta_days _ <=? 2). }
    rewrite Heq. clear Heq IH. simpl in Habout.
    simpl. unfold send_deadline_reminder. rewrite Hon. simpl.
    destruct (decide (due_date (objects σ task) - utc_now turn < days 3)) as [Hdue|Hdue].
    + assert ((timedelta_days (due_date (objects σ task) - utc_now turn) <=? 2) = true) as ->
        by by apply Z.leb_le, timedelta_days_le_2.
      simpl. eexists (_ :: new). rewrite <-app_assoc. split_and!; [done | |].
      * rewrite !fmap_cons, Habout. done.
      * constructor; [done | done].
    + assert ((timedelta_days (due_date (objects σ task) - utc_now turn) <=? 2) = false) as ->.
      { apply Z.leb_gt.
        pose proof (timedelta_days_le_2 (due_date (objects σ task) - utc_now turn)). lia. }
      exists new. split_and!; [by destruct agent | done | done].
Qed.

(** X28. [check_deadlines] never touches the store, the history or the
    settings.  With reminders switched on it queues, in the order of the
    table, one reminder for each stored task that is due less than three
    days after the clock reading of its turn, whatever the task's status,
    addressed to the task's [assigned_to] (an empty string for a task
    never assigned); with reminders off it does nothing. *)
Theorem check_deadlines_reminders o :
  scheduler_agent (check_deadlines utc_now now o) = scheduler_agent o
  ∧ notification_history (notifier (check_deadlines utc_now now o))
    = notification_history (notifier o)
  ∧ notification_settings (notifier (check_deadlines utc_now now o))
    = notification_settings (notifier o)
  ∧ (deadline_reminder (notification_settings (notifier o)) = false →
     check_deadlines utc_now now o = o)
  ∧ (deadline_reminder (notification_settings (notifier o)) = true →
     ∃ new,
       notification_queue (notifier (check_deadlines utc_now now o))
       = notification_queue (notifier o) ++ new
       ∧ about <$> new
         = (λ kr : nat * ref,
              (Some (id (objects (scheduler_agent o) kr.2)),
               assigned_to (objects (scheduler_agent o) kr.2)))
           <$> filter (λ kr : nat * ref,
                         due_date (objects (scheduler_agent o) kr.2) - utc_now kr.1 < days 3)
                 (imap pair (values (tasks (self (scheduler_agent o)))))
       ∧ Forall (λ n, n_type n = "deadline_reminder" ∧ n_priority n = "high"
                      ∧ n_status n = "pending") new).
Proof.
  assert (∀ l (st : NotificationAgent * nat),
            deadline_reminder (notification_settings st.1) = false →
            (foldl (remind_step utc_now now (scheduler_agent o)) st l).1 = st.1) as Hoff.
  { induction l as [|task l IH]; intros [agent turn] Hoff; [done|].
    cbn [foldl]. rewrite IH; simpl in *; unfold send_deadline_reminder; by rewrite Hoff. }
  pose proof (remind_steps (scheduler_agent o) (values (tasks (self (scheduler_agent o))))
                (notifier o, 0%nat)) as Hon.
  cbn [fst snd] in Hon.
  unfold check_deadlines. cbv zeta. cbn [scheduler_agent notifier].
  destruct (deadline_reminder (notification_settings (notifier o))) eqn:Hswitch.
  - destruct (Hon eq_refl) as (new & -> & Habout & Hall). simpl.
    split_and!; [done | done | done | done |].
    intros _. exists new. split_and!; [done | | done].
    exact Habout.
  - rewrite Hoff by done. simpl. split_and!; [done | done | done | by destruct o | done].
Qed.
End deadlines.

(** ** The report of an agent after an assignment run *)

Section reports.
Context (str_datetime : Z → string) (clock : nat → Z).
Implicit Types (o : SchedulerOrchestrator) (σ : state) (r : ref).

Lemma fmap_filter {A B} (f : A → B) (P : B → Prop) `{∀ b, Decision (P b)} (l : list A) :
  f <$> filter (λ x, P (f x)) l = filter P (f <$> l).
Proof.
  induction l as [|x l IH]; [done|].
  rewrite fmap_cons, !filter_cons. destruct (decide (P (f x))); csimpl; by rewrite IH.
Qed.

Lemma filter_ext_elem {A} (P Q : A → Prop) `{∀ x, Decision (P x)} `{∀ x, Decision (Q x)}
    (l : list A) :
  (∀ x, x ∈ l → P x ↔ Q x) → filter P l = filter Q l.
Proof.
  induction l as [|x l IH]; intros Hext; [done|].
  rewrite !filter_cons.
  assert (P x ↔ Q x) as Hx by (apply Hext, elem_of_cons; by left).
  rewrite IH by (intros y Hy; apply Hext, elem_of_cons; by right).
  destruct (decide (P x)), (decide (Q x)); tauto.
Qed.

Lemma filter_none {A} (P : A → Prop) `{∀ x, Decision (P x)} (l : list A) :
  (∀ x, x ∈ l → ¬ P x) → filter P l = [].
Proof.
  induction l as [|x l IH]; intros Hall; [done|].
  rewrite filter_cons, decide_False by (apply Hall, elem_of_cons; by left).
  apply IH. intros y Hy. apply Hall, elem_of_cons. by right.
Qed.

(** Filtering the values of a table by a property of the value is
    filtering its keys by the matching property of the key. *)
Lemma filter_values_keys {V} (d : dict V) (f : V → string) (P : V → Prop)
    (Q : string → Prop) `{∀ v, Decision (P v)} `{∀ k, Decision (Q k)} :
  (∀ k v, (k, v) ∈ items d → f v = k ∧ (P v ↔ Q k)) →
  f <$> filter P (values d) = filter Q (keys d).
Proof.
  unfold items, values, keys.
  induction d as [|[k v] d IH]; intros Hall; [done|].
  csimpl. rewrite !filter_cons.
  destruct (Hall k v) as [Hf HPQ]; [apply elem_of_cons; by left|].
  rewrite <-IH by (intros k' v' Hin; apply Hall, elem_of_cons; by right).
  destruct (decide (P v)), (decide (Q k)); [by rewrite fmap_cons, Hf | tauto | tauto | done].
Qed.

Lemma assign_pairs_self pairs : ∀ σ, self (foldl assign_pair σ pairs) = self σ.
Proof.
  induction pairs as [|[key agent] pairs IH]; intros σ; [done|].
  cbn [foldl]. rewrite IH. unfold assign_pair, assign_task. simpl.
  destruct (get _ key); [|done]. by destruct (bool_decide _).
Qed.

Lemma assign_pairs_consistent pairs : ∀ σ,
  consistent σ → consistent (foldl assign_pair σ pairs).
Proof.
  induction pairs as [|ka pairs IH]; intros σ Hσ; [done|].
  cbn [foldl]. apply IH. rewrite assign_pair_run_call. by apply run_call_consistent.
Qed.

(** X29. After [assign_and_optimize_tasks] and
    [process_pending_notifications] on a consistent store with a non-empty
    roster and assignment notifications switched on, the report
    [get_agent_schedule] gives for an agent to whom no notification was
    addressed before has the agent's list of the returned schedule as its
    tasks, their number as its task count, and as its notifications exactly
    one sent [task_assignment] notification for each of these tasks. *)
Theorem get_agent_schedule_after_assignment o agent_id :
  consistent (scheduler_agent o) →
  agents (self (scheduler_agent o)) ≠ [] →
  task_assignment (notification_settings (notifier o)) = true →
  agent_id ≠ "" →
  (∀ n, n ∈ notification_queue (notifier o) ++ notification_history (notifier o) →
     n_recipient n ≠ agent_id) →
  ∃ schedule o',
    assign_and_optimize_tasks str_datetime clock o = Done (schedule, o')
    ∧ Orchestrator.s_tasks
        (Orchestrator.get_agent_schedule agent_id (process_pending_notifications o'))
      = get_default schedule agent_id []
    ∧ Orchestrator.s_task_count
        (Orchestrator.get_agent_schedule agent_id (process_pending_notifications o'))
      = length (get_default schedule agent_id [])
    ∧ n_related_task
        <$> Orchestrator.s_notifications
              (Orchestrator.get_agent_schedule agent_id (process_pending_notifications o'))
      ≡ₚ (λ r, Some (id (objects (scheduler_agent o') r)))
           <$> get_default schedule agent_id []
    ∧ Forall (λ n, n_type n = "task_assignment" ∧ n_status n = "sent"
                   ∧ n_recipient n = agent_id)
        (Orchestrator.s_notifications
           (Orchestrator.get_agent_schedule agent_id (process_pending_notifications o'))).
Proof.
  intros Hσ Hroster Hswitch Hne Hfresh.
  unfold assign_and_optimize_tasks. cbv zeta.
  destruct (assignment_facts (scheduler_agent o) Hσ Hroster)
    as (dist & Hdist & Hids & Hassigned).
  rewrite Hdist. cbn [bind].
  pose proof (assign_loop_store str_datetime clock dist (o, 0%nat)) as Hstore.
  destruct (assign_loop_notifier str_datetime clock dist (o, 0%nat) Hswitch)
    as (new & Hnew & Habout & Hall).
  destruct (foldl _ (o, 0%nat) (items dist)) as [o1 turns].
  cbn [fst] in Hstore, Hnew.
  eexists _, _. split; [done|].
  unfold Orchestrator.get_agent_schedule, process_pending_notifications.
  cbn [with_store notifier scheduler_agent optimize_schedule snd objects
       Orchestrator.s_tasks Orchestrator.s_task_count Orchestrator.s_notifications].
  rewrite Hstore, Hnew.
  set (σ := scheduler_agent o) in *.
  set (σ1 := foldl assign_pair σ (assignments dist)) in *.
  pose proof (assign_pairs_self (assignments dist) σ) as Hself. fold σ1 in Hself.
  pose proof (assign_pairs_consistent (assignments dist) σ Hσ) as Hσ1. fold σ1 in Hσ1.
  assert (∀ key agent, (key, agent) ∈ assignments dist → agent ∈ agents (self σ))
    as Hregistered.
  { destruct (for_each_place_concat
                (sorted_tasks (objects σ <$> values (tasks (self σ))))
                (empty_workload (agents (self σ))))
      as (dist' & Hrun & Hkeys & _);
      [apply NoDup_empty_workload | by apply keys_empty_workload_nonempty |].
    unfold suggest_task_redistribution in Hdist. rewrite Hrun in Hdist.
    injection Hdist as ->.
    intros key agent Hin. apply assignments_agent in Hin.
    rewrite Hkeys, keys_empty_workload in Hin. by rewrite first_occurrences_elem in Hin. }
  assert (get_notification_history (Some agent_id)
            (process_notifications
               {| notification_queue := notification_queue (notifier o) ++ new;
                  notification_history := notification_history (notifier o);
                  notification_settings := notification_settings (notifier o) |}).2
          = sent <$> filter (λ n, n_recipient n = agent_id) new) as ->.
  { unfold get_notification_history.
    destruct (decide (agent_id = "")) as [?|_]; [done|].
    unfold process_notifications. rewrite process_loop_spec. simpl.
    rewrite filter_app, filter_sent, filter_app.
    rewrite (filter_none _ (notification_history (notifier o)))
      by (intros n Hn; apply Hfresh, elem_of_app; by right).
    rewrite (filter_none _ (notification_queue (notifier o)))
      by (intros n Hn; apply Hfresh, elem_of_app; by left).
    done. }
  split_and!; [done | done | |].
  - assert (n_related_task <$> (sent <$> filter (λ n, n_recipient n = agent_id) new)
            = Some <$> (filter (λ ka : string * string, ka.2 = agent_id)
                          (assignments dist)).*1) as ->.
    { rewrite <-!list_fmap_compose.
      change (n_related_task ∘ sent) with (fst ∘ about).
      change (Some ∘ fst) with (fst ∘ (λ ka : string * string, (Some ka.1, ka.2))).
      rewrite !list_fmap_compose.
      change (filter (λ n, n_recipient n = agent_id) new)
        with (filter (λ n, (about n).2 = agent_id) new).
      change (filter (λ ka : string * string, ka.2 = agent_id) (assignments dist))
        with (filter (λ ka : string * string, (Some ka.1, ka.2).2 = agent_id)
                (assignments dist)).
      transitivity (fst <$> filter (λ p : option string * string, p.2 = agent_id)
                              (about <$> new)).
      { f_equal.
        pose proof (fmap_filter about (λ p : option string * string, p.2 = agent_id) new)
          as Heq.
        exact Heq. }
      rewrite Habout. f_equal. symmetry.
      pose proof (fmap_filter (λ ka : string * string, (Some ka.1, ka.2))
                    (λ p : option string * string, p.2 = agent_id) (assignments dist))
        as Heq.
      exact Heq. }
    change (foldl _ [] (agents (self σ1)))
      with (fill (agent_tasks (objects σ1) (tasks (self σ1))) [] (agents (self σ1))).
    unfold get_default. rewrite get_fill, Hself.
    destruct (decide (agent_id ∈ agents (self σ))) as [Hin|Hout]; simpl.
    + set (Q := λ key, assigned_to ∘ objects σ1 <$> get (tasks (self σ)) key
                       = Some agent_id).
      rewrite agent_tasks_Permutation.
      rewrite (list_fmap_compose (λ r, id (objects σ1 r)) Some).
      rewrite (filter_values_keys (tasks (self σ)) (λ r, id (objects σ1 r)) _ Q).
      * rewrite (filter_ext_elem _ (λ ka : string * string, Q ka.1)).
        -- pose proof (fmap_filter fst Q (assignments dist)) as Heq.
           etrans; [apply reflexive_eq, (f_equal (fmap Some)), Heq|].
           by rewrite Hids.
        -- intros [key agent] Hka. unfold Q. simpl.
           assert (key ∈ keys (tasks (self σ))) as [r Hr]%get_is_Some.
           { rewrite <-Hids. apply list_elem_of_fmap. by exists (key, agent). }
           rewrite Hr. simpl. rewrite (Hassigned key agent r Hka Hr). naive_solver.
      * intros key r Hkr. apply get_items in Hkr; [|apply Hσ].
        unfold Q. rewrite Hkr. simpl. split; [|naive_solver].
        apply Hσ1. by rewrite Hself.
    + rewrite (filter_none _ (assignments dist)); [done|].
      intros [key agent] Hka. simpl. intros ->. by apply Hout, (Hregistered key).
  - apply Forall_fmap, Forall_forall. intros n [Hrec Hn]%list_elem_of_filter.
    rewrite Forall_forall in Hall. destruct (Hall n Hn) as [Htype _]. done.
Qed.
End reports.

Lemma get_agent_schedule_after_assignment_witness :
  ∃ schedule o',
    assign_and_optimize_tasks (λ _, "") (λ _, 0)
      (with_store (sample_orchestrator ["agent_1"; "agent_2"])
         (run_calls (sample_state ["agent_1"; "agent_2"]) [AddTask 0%nat; AddTask 1%nat]))
    = Done (schedule, o')
    ∧ length (Orchestrator.s_notifications
                (Orchestrator.get_agent_schedule "agent_1"
                   (process_pending_notifications o')))
      = Orchestrator.s_task_count
          (Orchestrator.get_agent_schedule "agent_1" (process_pending_notifications o')).
Proof.
  destruct (get_agent_schedule_after_assignment (λ _, "") (λ _, 0)
              (with_store (sample_orchestrator ["agent_1"; "agent_2"])
                 (run_calls (sample_state ["agent_1"; "agent_2"])
                    [AddTask 0%nat; AddTask 1%nat]))
              "agent_1")
    as (schedule & o' & Hrun & _ & Hcount & Hperm & _).
  - apply run_calls_consistent_inv, sample_state_consistent.
  - done.
  - reflexivity.
  - done.
  - simpl. by intros n ?%elem_of_nil.
  - exists schedule, o'. split; [exact Hrun|].
    rewrite Hcount. apply Permutation_length in Hperm.
    by rewrite !length_fmap in Hperm.
Defined.
